(** * Perfetto trace decoder: the raw wire-format walk of [decode_trace.py]

    A shallow embedding of [subsys/tracing/perfetto/decode_trace.py]:
    [decode_varint], [skip_field] and the part of [print_packet] that walks
    the serialized bytes of a packet, collects the field numbers found on the
    wire and reports those outside the known-field allow-list.

    Python integers are unbounded, so offsets, tags and values are [Z].
    A [bytes] object is a [list byte]; indexing it yields an integer in
    [0, 255].  Exceptions are explicit in the [outcome] type. *)

From Stdlib Require Import ZArith Lia List Strings.Byte Ascii String DecimalString.
From stdpp Require Import base list gmap sorting.

Open Scope Z_scope.

(** ** Outcomes of Python code: a value, a raised exception, or a loop that
       was cut off by the fuel of the model (shown below never to happen). *)

Inductive exn : Type :=
| IndexError
| ValueError.

Inductive outcome (A : Type) : Type :=
| Ret (a : A)
| Raise (e : exn)
| OutOfFuel.

Arguments Ret {A} a.
Arguments Raise {A} e.
Arguments OutOfFuel {A}.

#[global] Instance outcome_ret : MRet outcome := fun A a => Ret a.

#[global] Instance outcome_bind : MBind outcome := fun A B k m =>
  match m with
  | Ret a => k a
  | Raise e => Raise e
  | OutOfFuel => OutOfFuel
  end.

(** ** Byte strings *)

Definition byte_val (b : byte) : Z := Z.of_N (Byte.to_N b).

(** [len(data)] *)
Definition len (data : list byte) : Z := Z.of_nat (length data).

(** [data[i]] on a [bytes] object: a negative index counts from the end, an
    index outside the object raises [IndexError]. *)
Definition getitem (data : list byte) (i : Z) : outcome Z :=
  let j := if i <? 0 then i + len data else i in
  if (0 <=? j) && (j <? len data) then
    match data !! Z.to_nat j with
    | Some b => Ret (byte_val b)
    | None => Raise IndexError
    end
  else Raise IndexError.

(** ** [decode_varint] (lines 26-37) *)

(** The [while pos < len(data)] loop; [fuel] bounds the number of iterations. *)
Fixpoint decode_varint_loop (fuel : nat) (data : list byte)
    (result shift pos : Z) : outcome (Z * Z) :=
  if pos <? len data then
    match fuel with
    | O => OutOfFuel
    | S fuel' =>
        byte ← getitem data pos;
        let result := Z.lor result (Z.shiftl (Z.land byte 0x7f) shift) in
        let pos := pos + 1 in
        if Z.land byte 0x80 =? 0 then Ret (result, pos)
        else decode_varint_loop fuel' data result (shift + 7) pos
    end
  else Ret (result, pos).

Definition decode_varint (data : list byte) (pos : Z) : outcome (Z * Z) :=
  decode_varint_loop (Z.to_nat (len data - pos)) data 0 0 pos.

(** ** [skip_field] (lines 40-54) *)

(** [while pos < len(data) and data[pos] & 0x80: pos += 1] *)
Fixpoint skip_varint_loop (fuel : nat) (data : list byte) (pos : Z) : outcome Z :=
  if pos <? len data then
    match fuel with
    | O => OutOfFuel
    | S fuel' =>
        byte ← getitem data pos;
        if Z.land byte 0x80 =? 0 then Ret pos
        else skip_varint_loop fuel' data (pos + 1)
    end
  else Ret pos.

Definition skip_field (data : list byte) (pos wire_type : Z) : outcome Z :=
  if wire_type =? 0 then
    pos ← skip_varint_loop (Z.to_nat (len data - pos)) data pos;
    Ret (pos + 1)
  else if wire_type =? 1 then Ret (pos + 8)
  else if wire_type =? 2 then
    '(length, pos) ← decode_varint data pos;
    Ret (pos + length)
  else if wire_type =? 5 then Ret (pos + 4)
  else Raise ValueError.

(** ** [print_packet]: the raw field walk (lines 119-130) *)

(** One pass of the [while pos < len(raw_data)] loop.  The field number is
    appended before [skip_field] runs; the bare [except:] turns any exception
    of [skip_field] into [break].  [decode_varint] is outside the [try]. *)
Fixpoint field_numbers_loop (fuel : nat) (raw_data : list byte) (pos : Z)
    (field_numbers : list Z) : outcome (list Z) :=
  if pos <? len raw_data then
    match fuel with
    | O => OutOfFuel
    | S fuel' =>
        '(tag, new_pos) ← decode_varint raw_data pos;
        let field_num := Z.shiftr tag 3 in
        let wire_type := Z.land tag 0x7 in
        let field_numbers := field_numbers ++ [field_num] in
        match skip_field raw_data new_pos wire_type with
        | Ret pos => field_numbers_loop fuel' raw_data pos field_numbers
        | Raise _ => Ret field_numbers
        | OutOfFuel => OutOfFuel
        end
    end
  else Ret field_numbers.

(** [pos = 0; field_numbers = []; while ...] *)
Definition raw_field_numbers (raw_data : list byte) : outcome (list Z) :=
  field_numbers_loop (length raw_data) raw_data 0 [].

(** ** [print_packet]: the unknown-field report (lines 114, 132-134) *)

Definition known_field_nums : gset Z := {[ 8; 10; 13; 11; 60; 12 ]}.

(** [sorted(s)] on a set of integers. *)
Definition sorted (s : gset Z) : list Z := merge_sort Z.le (elements s).

(** [None] when [unknown_fields] is empty and nothing is printed, otherwise
    the list [sorted(set(unknown_fields))] that is shown. *)
Definition unknown_fields_report (field_numbers : list Z) : option (list Z) :=
  let unknown_fields :=
    filter (fun f => f ∉ known_field_nums) field_numbers in
  match unknown_fields with
  | [] => None
  | _ :: _ => Some (sorted (list_to_set unknown_fields))
  end.


(** ** [print_packet]: the sequence-flags line (lines 71-77) *)

(** The decimal digits of an integer, with a minus sign if negative. *)
Definition str_of_int (n : Z) : string := NilZero.string_of_int (Z.to_int n).

(** [sys.get_int_max_str_digits()] at its default (CPython 3.11 and later). *)
Definition max_str_digits : Z := 4300.

(** [str(n)], [repr(n)] and [f"{n}"] for an integer: the decimal digits, or
    [ValueError] when there are more than [max_str_digits] of them, the sign
    not counted.  The script does not change the limit. *)
Definition format_int (n : Z) : outcome string :=
  if 10 ^ max_str_digits <=? Z.abs n then Raise ValueError
  else Ret (str_of_int n).

(** [flags = []] followed by the two conditional [append]s. *)
Definition sequence_flag_names (sequence_flags : Z) : list string :=
  let flags := [] in
  let flags :=
    if Z.land sequence_flags 1 =? 0 then flags
    else flags ++ ["INCREMENTAL_STATE_CLEARED"%string] in
  let flags :=
    if Z.land sequence_flags 2 =? 0 then flags
    else flags ++ ["NEEDS_INCREMENTAL_STATE"%string] in
  flags.

(** The packet field as the schema-bound reader exposes it: [None] when
    [HasField('sequence_flags')] is false.  The result is the line printed,
    if any.  The field is a [uint32] of the schema, so its value has at most
    10 digits and [format_int] returns them ([format_int_uint32] below). *)
Definition print_sequence_flags (sequence_flags : option Z) : option string :=
  match sequence_flags with
  | None => None
  | Some v =>
      Some ("  sequence_flags: " ++ str_of_int v ++ " ("
            ++ String.concat ", " (sequence_flag_names v) ++ ")")%string
  end.

(** ** [print_packet] and [main]: report per packet (lines 119-134, 160-161) *)



(** The items of a list converted one after the other, as [repr] of a list
    does: the first conversion that raises ends it. *)
Fixpoint format_ints (l : list Z) : outcome (list string) :=
  match l with
  | [] => mret []
  | n :: rest =>
      item ← format_int n;
      items ← format_ints rest;
      mret (item :: items)
  end.

(** A list of integers as an f-string shows it. *)
Definition format_list (l : list Z) : outcome string :=
  items ← format_ints l;
  mret ("[" ++ String.concat ", " items ++ "]")%string.

(** Lines 132-134: nothing when [unknown_fields] is empty, otherwise the
    line printed; building the line converts every number shown. *)
Definition unknown_fields_line (field_numbers : list Z)
    : outcome (option string) :=
  match unknown_fields_report field_numbers with
  | None => mret None
  | Some shown =>
      text ← format_list shown;
      mret (Some ("  [contains fields not in our proto: " ++ text ++ "]")%string)
  end.



(** ** The raw walk as a relation on loop states

    [walk raw_data pos field_numbers out]: started with the loop variables
    [pos] and [field_numbers], the [while] loop of lines 122-130 ends with
    [field_numbers = out].  One constructor per way through the loop: the
    test fails; [skip_field] returns; [skip_field] raises and the handler
    breaks.  An exception of [decode_varint] would leave the loop and is
    no walk. *)

Inductive walk (raw_data : list byte) : Z -> list Z -> list Z -> Prop :=
| walk_exit pos field_numbers :
    len raw_data <= pos ->
    walk raw_data pos field_numbers field_numbers
| walk_skip pos field_numbers tag new_pos pos' out :
    pos < len raw_data ->
    decode_varint raw_data pos = Ret (tag, new_pos) ->
    skip_field raw_data new_pos (Z.land tag 0x7) = Ret pos' ->
    walk raw_data pos' (field_numbers ++ [Z.shiftr tag 3]) out ->
    walk raw_data pos field_numbers out
| walk_break pos field_numbers tag new_pos e :
    pos < len raw_data ->
    decode_varint raw_data pos = Ret (tag, new_pos) ->
    skip_field raw_data new_pos (Z.land tag 0x7) = Raise e ->
    walk raw_data pos field_numbers (field_numbers ++ [Z.shiftr tag 3]).

(** ** The wire format, as the specification describes it

    The definitions of this part have no counterpart in the script: they
    state the protobuf wire format in the words of the specification
    (sections 4.1 and 6), and the functions above are compared with them. *)

(** The continuation bit is the top bit of a byte. *)
Definition continuation (b : byte) : bool := 128 <=? byte_val b.

(** The 7 value bits of a byte. *)
Definition low7 (b : byte) : Z := byte_val b mod 128.

(** The bytes of one complete varint: every byte but the last carries the
    continuation bit. *)
Fixpoint is_varint (bs : list byte) : bool :=
  match bs with
  | [] => false
  | b :: bs' =>
      match bs' with
      | [] => negb (continuation b)
      | _ :: _ => continuation b && is_varint bs'
      end
  end.

(** The base-128 value of a sequence of 7-bit groups, least significant
    group first. *)
Fixpoint varint_value (bs : list byte) : Z :=
  match bs with
  | [] => 0
  | b :: bs' => low7 b + 128 * varint_value bs'
  end.

Definition byte_of_Z (z : Z) : byte :=
  match Byte.of_N (Z.to_N z) with
  | Some b => b
  | None => x00
  end.

(** The encoder of an unsigned integer as a base-128 little-endian varint:
    seven value bits per byte, least significant group first, top bit set on
    every byte but the last.  The script only decodes; encoding is done by
    the serializer of the protobuf library.  Each round divides by 128, so
    [log2 n] rounds are more than enough. *)
Fixpoint encode_varint_groups (rounds : nat) (n : Z) : list byte :=
  if n <? 128 then [byte_of_Z n]
  else
    match rounds with
    | O => []
    | S rounds' =>
        byte_of_Z (n mod 128 + 128) :: encode_varint_groups rounds' (n / 128)
    end.

Definition encode_varint (n : Z) : list byte :=
  encode_varint_groups (Z.to_nat (Z.log2 n)) n.

(** One field on the wire: a tag varint followed by the payload its wire
    type calls for. *)
Inductive wire_field : Type :=
| WVarint (tag value : list byte)
| WFixed64 (tag body : list byte)
| WLen (tag length_prefix body : list byte)
| WFixed32 (tag body : list byte).

Definition wire_tag (f : wire_field) : list byte :=
  match f with
  | WVarint t _ | WFixed64 t _ | WLen t _ _ | WFixed32 t _ => t
  end.

Definition wire_payload (f : wire_field) : list byte :=
  match f with
  | WVarint _ v => v
  | WFixed64 _ b => b
  | WLen _ l b => l ++ b
  | WFixed32 _ b => b
  end.

Definition wire_bytes (f : wire_field) : list byte :=
  wire_tag f ++ wire_payload f.

(** tag = (field_number << 3) | wire_type *)
Definition field_number (f : wire_field) : Z := varint_value (wire_tag f) / 8.
Definition wire_type (f : wire_field) : Z := varint_value (wire_tag f) mod 8.

(** The payload lies within the field and has the shape of the wire type. *)
Definition well_formed (f : wire_field) : bool :=
  is_varint (wire_tag f) &&
  match f with
  | WVarint _ v => (wire_type f =? 0) && is_varint v
  | WFixed64 _ b => (wire_type f =? 1) && (len b =? 8)
  | WLen _ l b => (wire_type f =? 2) && is_varint l && (len b =? varint_value l)
  | WFixed32 _ b => (wire_type f =? 5) && (len b =? 4)
  end.

(** A buffer of concatenated (tag, payload) pairs. *)
Definition serialize (fs : list wire_field) : list byte :=
  concat (map wire_bytes fs).

Definition make_tag (field_num wt : Z) : list byte :=
  encode_varint (field_num * 8 + wt).

(** ** Vocabulary of the statements *)

(** What the scan of wire type 0 stops on: everything it passed over carries
    the continuation bit, and it stands on a byte without it or at the end. *)
Definition scan_stops (data : list byte) (pos stop : Z) : Prop :=
  pos <= stop <= Z.max pos (len data)
  /\ (forall i, pos <= i < stop ->
        exists b, data !! Z.to_nat i = Some b /\ continuation b = true)
  /\ (stop < len data ->
        exists b, data !! Z.to_nat stop = Some b /\ continuation b = false).

(** The least distance [skip_field] moves for each wire type. *)
Definition min_advance (wire_type : Z) : Z :=
  if wire_type =? 0 then 1
  else if wire_type =? 1 then 8
  else if wire_type =? 2 then 0
  else if wire_type =? 5 then 4
  else 0.

Definition known_wire_type (wire_type : Z) : bool :=
  (wire_type =? 0) || (wire_type =? 1) || (wire_type =? 2) || (wire_type =? 5).

(** The scenario of the specification: field 1 as a varint of value 300, then
    field 2 as a length-delimited field with the payload "abc". *)
Definition scenario_fields : list wire_field :=
  [ WVarint (make_tag 1 0) (encode_varint 300);
    WLen (make_tag 2 2) (encode_varint 3) [x61; x62; x63] ].

Definition scenario_buffer : list byte :=
  [x08; xac; x02; x12; x03; x61; x62; x63].


(** ** [main]: the hex preview line (line 148) *)

Definition hex_digit (d : Z) : Ascii.ascii :=
  nth (Z.to_nat d) (list_ascii_of_string "0123456789abcdef") "0"%char.

(** [bytes.hex()]: two lower-case hexadecimal digits per byte. *)
Fixpoint hex (data : list byte) : string :=
  match data with
  | [] => EmptyString
  | b :: rest =>
      String (hex_digit (byte_val b / 16))
        (String (hex_digit (byte_val b mod 16)) (hex rest))
  end.

(** [data[:200].hex()]: the slice stops at the end of a shorter object. *)
Definition hex_preview (data : list byte) : string := hex (take 200 data).

Definition print_hex_preview (data : list byte) : string :=
  ("Raw hex (first 200 bytes): " ++ hex_preview data)%string.

(** Moving a returned offset by the length of what was put in front. *)
Definition moved (d : Z) (r : outcome (Z * Z)) : outcome (Z * Z) :=
  '(value, new_pos) ← r; mret (value, d + new_pos).

Definition moved_offset (d : Z) (r : outcome Z) : outcome Z :=
  new_pos ← r; mret (d + new_pos).

(** A last payload that stops short of what its wire type calls for: a
    varint without its final byte, or fewer bytes than the fixed width. *)
Definition truncated_payload (wire_type : Z) (body : list byte) : bool :=
  ((wire_type =? 0) && forallb continuation body)
  || ((wire_type =? 1) && (len body <? 8))
  || ((wire_type =? 5) && (len body <? 4)).

(** A byte with the same 7 value bits and the continuation bit set. *)
Definition with_continuation (b : byte) : byte := byte_of_Z (low7 b + 128).

(** A longer encoding of the same integer: the groups of the encoder, all
    marked as continued, then [k] empty groups and a final empty group. *)
Definition padded_varint (n : Z) (k : nat) : list byte :=
  map with_continuation (encode_varint n) ++ replicate k x80 ++ [x00].

(** The value of a hexadecimal digit, for reading a preview back. *)
Definition hex_digit_value (c : Ascii.ascii) : Z :=
  let n := Z.of_nat (Ascii.nat_of_ascii c) in
  if n <? 58 then n - 48 else n - 87.

(** * Properties *)

(** ** Bytes and indexing *)

Lemma byte_val_range (b : byte) : 0 <= byte_val b < 256.
Proof.
  unfold byte_val. pose proof (Byte.to_N_bounded b). lia.
Qed.

Lemma continuation_bit (b : byte) :
  (Z.land (byte_val b) 0x80 =? 0) = negb (continuation b).
Proof. destruct b; reflexivity. Qed.

Lemma low7_bits (b : byte) : Z.land (byte_val b) 0x7f = low7 b.
Proof. destruct b; reflexivity. Qed.

Lemma low7_range (b : byte) : 0 <= low7 b < 128.
Proof. unfold low7. apply Z.mod_pos_bound. lia. Qed.

Lemma len_nonneg (data : list byte) : 0 <= len data.
Proof. unfold len. lia. Qed.

Lemma len_app (xs ys : list byte) : len (xs ++ ys) = len xs + len ys.
Proof. unfold len. rewrite length_app. lia. Qed.

Lemma len_nil : len [] = 0.
Proof. reflexivity. Qed.

Lemma len_cons (b : byte) (xs : list byte) : len (b :: xs) = 1 + len xs.
Proof. unfold len. cbn [length]. lia. Qed.

Lemma getitem_inside (data : list byte) (i : Z) :
  0 <= i < len data ->
  exists b, data !! Z.to_nat i = Some b /\ getitem data i = Ret (byte_val b).
Proof.
  intros Hi. unfold getitem.
  destruct (Z.ltb_spec i 0) as [?|_]; [lia|].
  destruct (Z.leb_spec 0 i) as [_|?]; [|lia].
  destruct (Z.ltb_spec i (len data)) as [_|?]; [|lia].
  cbn [andb].
  destruct (data !! Z.to_nat i) as [b|] eqn:Hb; [eauto|].
  apply lookup_ge_None in Hb. unfold len in Hi. lia.
Qed.

Lemma lookup_middle_byte (pre post : list byte) (b : byte) :
  (pre ++ b :: post) !! Z.to_nat (len pre) = Some b.
Proof.
  unfold len. rewrite Nat2Z.id. apply list_lookup_middle. reflexivity.
Qed.

Lemma getitem_middle (pre post : list byte) (b : byte) :
  getitem (pre ++ b :: post) (len pre) = Ret (byte_val b).
Proof.
  destruct (getitem_inside (pre ++ b :: post) (len pre)) as (b' & Hb' & ->).
  - rewrite len_app, len_cons. pose proof (len_nonneg pre).
    pose proof (len_nonneg post). lia.
  - rewrite lookup_middle_byte in Hb'. congruence.
Qed.

(** On a group that fits below the bits already placed, [|=] adds. *)
Lemma lor_shiftl_add (r g s : Z) :
  0 <= s -> 0 <= r < 2 ^ s ->
  Z.lor r (Z.shiftl g s) = r + g * 2 ^ s.
Proof.
  intros Hs Hr. rewrite Z.shiftl_mul_pow2 by assumption.
  rewrite <- Z.lxor_lor, <- Z.add_nocarry_lxor; try reflexivity.
  all: apply Z.bits_inj'; intros i Hi; rewrite Z.land_spec, Z.bits_0.
  all: destruct (Z.lt_ge_cases i s) as [Hlt|Hge].
  all: try (rewrite Z.mul_pow2_bits_low by lia; apply andb_false_r).
  all: rewrite <- (Z.mod_small r (2 ^ s)) by lia.
  all: rewrite Z.mod_pow2_bits_high by lia; reflexivity.
Qed.

(** ** [decode_varint]: one round, and totality *)

Lemma decode_varint_loop_past (fuel : nat) (data : list byte) (result shift pos : Z) :
  len data <= pos ->
  decode_varint_loop fuel data result shift pos = Ret (result, pos).
Proof.
  intros H. destruct fuel; cbn [decode_varint_loop];
    destruct (Z.ltb_spec pos (len data)); try lia; reflexivity.
Qed.

Lemma decode_varint_loop_round (fuel : nat) (data : list byte)
    (result shift pos : Z) (b : byte) :
  0 <= pos < len data ->
  data !! Z.to_nat pos = Some b ->
  decode_varint_loop (S fuel) data result shift pos =
    let result' := Z.lor result (Z.shiftl (low7 b) shift) in
    if continuation b
    then decode_varint_loop fuel data result' (shift + 7) (pos + 1)
    else Ret (result', pos + 1).
Proof.
  intros Hpos Hb. cbn [decode_varint_loop].
  destruct (Z.ltb_spec pos (len data)); [|lia].
  destruct (getitem_inside data pos Hpos) as (b' & Hb' & ->).
  assert (b' = b) as -> by congruence.
  cbn [mbind outcome_bind]. rewrite continuation_bit, low7_bits.
  destruct (continuation b); reflexivity.
Qed.

(** With fuel for the bytes left, the loop returns: it never raises, never
    runs out of fuel, moves forward, and yields a non-negative value. *)
Lemma decode_varint_loop_returns (fuel : nat) :
  forall (data : list byte) (result shift pos : Z),
    0 <= pos -> 0 <= result -> len data - pos <= Z.of_nat fuel ->
    exists value new_pos,
      decode_varint_loop fuel data result shift pos = Ret (value, new_pos)
      /\ 0 <= value
      /\ pos <= new_pos <= Z.max pos (len data)
      /\ (pos < len data -> pos + 1 <= new_pos).
Proof.
  induction fuel as [|fuel IH]; intros data result shift pos Hpos Hres Hfuel.
  - rewrite decode_varint_loop_past by lia.
    exists result, pos. repeat split; lia.
  - destruct (Z.lt_ge_cases pos (len data)) as [Hin|Hout].
    + destruct (getitem_inside data pos) as (b & Hb & _); [lia|].
      rewrite (decode_varint_loop_round _ _ _ _ _ b) by (lia || assumption).
      cbn zeta.
      assert (0 <= Z.lor result (Z.shiftl (low7 b) shift)) as Hres'.
      { apply Z.lor_nonneg. split; [assumption|].
        apply Z.shiftl_nonneg. apply low7_range. }
      destruct (continuation b).
      * destruct (IH data (Z.lor result (Z.shiftl (low7 b) shift))
                    (shift + 7) (pos + 1)) as (v & p & Hrun & Hv & Hp & _);
          try lia.
        exists v, p. repeat split; try assumption; lia.
      * eexists _, _. repeat split; try eassumption; lia.
    + rewrite decode_varint_loop_past by lia.
      exists result, pos. repeat split; lia.
Qed.

Lemma decode_varint_returns (data : list byte) (pos : Z) :
  0 <= pos ->
  exists value new_pos,
    decode_varint data pos = Ret (value, new_pos)
    /\ 0 <= value
    /\ pos <= new_pos <= Z.max pos (len data)
    /\ (pos < len data -> pos + 1 <= new_pos).
Proof.
  intros Hpos. unfold decode_varint.
  apply decode_varint_loop_returns; lia.
Qed.

(** ** [decode_varint] against the wire format of the specification *)

Lemma pow2_step (s : Z) : 0 <= s -> 2 ^ (s + 7) = 128 * 2 ^ s.
Proof. intros Hs. rewrite Z.pow_add_r by lia. lia. Qed.

Lemma group_fits (result shift : Z) (b : byte) :
  0 <= shift -> 0 <= result < 2 ^ shift ->
  Z.lor result (Z.shiftl (low7 b) shift) = result + low7 b * 2 ^ shift
  /\ 0 <= result + low7 b * 2 ^ shift < 2 ^ (shift + 7).
Proof.
  intros Hs Hr. rewrite lor_shiftl_add by assumption.
  rewrite pow2_step by assumption. pose proof (low7_range b). nia.
Qed.

(** A complete varint [bs] sitting at offset [len pre] is read whole. *)
Lemma decode_varint_loop_complete (bs : list byte) :
  forall (pre post : list byte) (fuel : nat) (result shift : Z),
    is_varint bs = true -> (length bs <= fuel)%nat ->
    0 <= shift -> 0 <= result < 2 ^ shift ->
    decode_varint_loop fuel (pre ++ bs ++ post) result shift (len pre) =
      Ret (result + varint_value bs * 2 ^ shift, len pre + len bs).
Proof.
  induction bs as [|b bs IH]; intros pre post fuel result shift Hv Hfuel Hs Hr.
  - discriminate.
  - destruct fuel as [|fuel]; [cbn in Hfuel; lia|].
    pose proof (len_nonneg pre). pose proof (len_nonneg (bs ++ post)).
    rewrite (decode_varint_loop_round _ _ _ _ _ b).
    2: { cbn [app]. rewrite len_app, len_cons. lia. }
    2: { apply lookup_middle_byte. }
    cbn zeta. destruct (group_fits result shift b Hs Hr) as [-> Hfit].
    cbn [is_varint] in Hv. destruct bs as [|b' bs].
    + apply negb_true_iff in Hv. rewrite Hv.
      cbn [varint_value]. rewrite len_cons, len_nil.
      f_equal. f_equal; lia.
    + apply andb_true_iff in Hv as [Hc Hv]. rewrite Hc.
      replace (len pre + 1) with (len (pre ++ [b]))
        by (rewrite len_app, len_cons, len_nil; lia).
      replace (pre ++ (b :: b' :: bs) ++ post)
        with ((pre ++ [b]) ++ (b' :: bs) ++ post)
        by (rewrite <- app_assoc; reflexivity).
      rewrite IH; try assumption; try lia.
      2: { cbn [length] in *. lia. }
      rewrite len_app, (len_cons b (b' :: bs)), (len_cons b []), len_nil.
      rewrite pow2_step by assumption.
      change (varint_value (b :: b' :: bs))
        with (low7 b + 128 * varint_value (b' :: bs)).
      f_equal. f_equal; lia.
Qed.

(** A run of continuation bytes that reaches the end of the buffer is read
    up to the end, and the groups read so far are the value. *)
Lemma decode_varint_loop_cut (bs : list byte) :
  forall (pre : list byte) (fuel : nat) (result shift : Z),
    forallb continuation bs = true -> (length bs <= fuel)%nat ->
    0 <= shift -> 0 <= result < 2 ^ shift ->
    decode_varint_loop fuel (pre ++ bs) result shift (len pre) =
      Ret (result + varint_value bs * 2 ^ shift, len pre + len bs).
Proof.
  induction bs as [|b bs IH]; intros pre fuel result shift Hc Hfuel Hs Hr.
  - rewrite app_nil_r, decode_varint_loop_past by lia.
    cbn [varint_value]. rewrite len_nil. f_equal. f_equal; lia.
  - destruct fuel as [|fuel]; [cbn in Hfuel; lia|].
    pose proof (len_nonneg pre). pose proof (len_nonneg bs).
    rewrite (decode_varint_loop_round _ _ _ _ _ b).
    2: { rewrite len_app, len_cons. lia. }
    2: { apply lookup_middle_byte. }
    cbn zeta. destruct (group_fits result shift b Hs Hr) as [-> Hfit].
    cbn [forallb] in Hc. apply andb_true_iff in Hc as [Hb Hc]. rewrite Hb.
    replace (len pre + 1) with (len (pre ++ [b]))
      by (rewrite len_app, len_cons, len_nil; lia).
    replace (pre ++ b :: bs) with ((pre ++ [b]) ++ bs)
      by (rewrite <- app_assoc; reflexivity).
    rewrite IH; try assumption; try lia.
    2: { cbn [length] in *. lia. }
    rewrite len_app, (len_cons b bs), (len_cons b []), len_nil.
    rewrite pow2_step by assumption. cbn [varint_value].
    f_equal. f_equal; lia.
Qed.

Lemma decode_varint_complete (pre bs post : list byte) :
  is_varint bs = true ->
  decode_varint (pre ++ bs ++ post) (len pre) =
    Ret (varint_value bs, len pre + len bs).
Proof.
  intros Hv. unfold decode_varint.
  rewrite decode_varint_loop_complete; try assumption; try lia.
  - f_equal. f_equal. rewrite Z.pow_0_r. lia.
  - rewrite !len_app. unfold len. lia.
Qed.

Lemma decode_varint_cut (pre bs : list byte) :
  forallb continuation bs = true ->
  decode_varint (pre ++ bs) (len pre) =
    Ret (varint_value bs, len (pre ++ bs)).
Proof.
  intros Hc. unfold decode_varint.
  rewrite decode_varint_loop_cut; try assumption; try lia.
  - rewrite len_app. f_equal. f_equal. rewrite Z.pow_0_r. lia.
  - rewrite !len_app. unfold len. lia.
Qed.

(** ** The encoder of the specification produces complete varints *)

Lemma byte_val_of_Z (z : Z) : 0 <= z < 256 -> byte_val (byte_of_Z z) = z.
Proof.
  intros Hz. unfold byte_of_Z, byte_val.
  destruct (Byte.of_N (Z.to_N z)) as [b|] eqn:Hb.
  - apply Byte.to_of_N in Hb. rewrite Hb. lia.
  - apply Byte.of_N_None_iff in Hb. lia.
Qed.

Lemma encode_varint_groups_spec (rounds : nat) :
  forall n : Z,
    0 <= n < 128 * 2 ^ Z.of_nat rounds ->
    is_varint (encode_varint_groups rounds n) = true
    /\ varint_value (encode_varint_groups rounds n) = n.
Proof.
  induction rounds as [|rounds IH]; intros n Hn.
  - cbn [encode_varint_groups]. change (2 ^ Z.of_nat 0) with 1 in Hn.
    destruct (Z.ltb_spec n 128); [|lia].
    cbn [is_varint varint_value]. unfold continuation, low7.
    rewrite byte_val_of_Z by lia. rewrite Z.mod_small by lia.
    split; [|lia]. apply negb_true_iff. apply Z.leb_gt. lia.
  - cbn [encode_varint_groups]. destruct (Z.ltb_spec n 128) as [Hlt|Hge].
    + cbn [is_varint varint_value]. unfold continuation, low7.
      rewrite byte_val_of_Z by lia. rewrite Z.mod_small by lia.
      split; [|lia]. apply negb_true_iff. apply Z.leb_gt. lia.
    + assert (0 <= n / 128 < 128 * 2 ^ Z.of_nat rounds) as Hq.
      { rewrite Nat2Z.inj_succ, Z.pow_succ_r in Hn by lia.
        split; [apply Z.div_pos; lia|].
        apply Z.div_lt_upper_bound; lia. }
      destruct (IH _ Hq) as [Hv Hval].
      pose proof (Z.mod_pos_bound n 128 ltac:(lia)) as Hm.
      assert (continuation (byte_of_Z (n mod 128 + 128)) = true) as Hc.
      { unfold continuation. rewrite byte_val_of_Z by lia. apply Z.leb_le. lia. }
      split.
      * cbn [is_varint]. rewrite Hc, Hv.
        destruct (encode_varint_groups rounds (n / 128)); [discriminate|reflexivity].
      * cbn [varint_value]. rewrite Hval. unfold low7.
        rewrite byte_val_of_Z by lia.
        replace ((n mod 128 + 128) mod 128) with (n mod 128).
        2: { rewrite <- Zplus_mod_idemp_r. rewrite Z.mod_same by lia.
             rewrite Z.add_0_r. rewrite Z.mod_mod by lia. reflexivity. }
        pose proof (Z.div_mod n 128 ltac:(lia)). lia.
Qed.

Lemma encode_varint_spec (n : Z) :
  0 <= n ->
  is_varint (encode_varint n) = true /\ varint_value (encode_varint n) = n.
Proof.
  intros Hn. unfold encode_varint. apply encode_varint_groups_spec.
  split; [assumption|].
  destruct (Z.eq_dec n 0) as [->|Hnz]; [cbn; lia|].
  rewrite Z2Nat.id by apply Z.log2_nonneg.
  pose proof (Z.log2_spec n ltac:(lia)) as [_ Hup].
  rewrite Z.pow_succ_r in Hup by apply Z.log2_nonneg.
  pose proof (Z.pow_pos_nonneg 2 (Z.log2 n) ltac:(lia) (Z.log2_nonneg n)).
  lia.
Qed.

(** ** [skip_field] *)

Lemma skip_varint_loop_past (fuel : nat) (data : list byte) (pos : Z) :
  len data <= pos -> skip_varint_loop fuel data pos = Ret pos.
Proof.
  intros H. destruct fuel; cbn [skip_varint_loop];
    destruct (Z.ltb_spec pos (len data)); try lia; reflexivity.
Qed.

Lemma skip_varint_loop_round (fuel : nat) (data : list byte) (pos : Z) (b : byte) :
  0 <= pos < len data ->
  data !! Z.to_nat pos = Some b ->
  skip_varint_loop (S fuel) data pos =
    if continuation b then skip_varint_loop fuel data (pos + 1) else Ret pos.
Proof.
  intros Hpos Hb. cbn [skip_varint_loop].
  destruct (Z.ltb_spec pos (len data)); [|lia].
  destruct (getitem_inside data pos Hpos) as (b' & Hb' & ->).
  assert (b' = b) as -> by congruence.
  cbn [mbind outcome_bind]. rewrite continuation_bit.
  destruct (continuation b); reflexivity.
Qed.

Lemma skip_varint_loop_stops (fuel : nat) :
  forall (data : list byte) (pos : Z),
    0 <= pos -> len data - pos <= Z.of_nat fuel ->
    exists stop,
      skip_varint_loop fuel data pos = Ret stop /\ scan_stops data pos stop.
Proof.
  induction fuel as [|fuel IH]; intros data pos Hpos Hfuel.
  - rewrite skip_varint_loop_past by lia. exists pos.
    split; [reflexivity|]. repeat split; try lia.
  - destruct (Z.lt_ge_cases pos (len data)) as [Hin|Hout].
    + destruct (getitem_inside data pos) as (b & Hb & _); [lia|].
      rewrite (skip_varint_loop_round _ _ _ b) by (lia || assumption).
      destruct (continuation b) eqn:Hc.
      * destruct (IH data (pos + 1)) as (stop & Hrun & Hr & Hrun_c & Hstop);
          try lia.
        exists stop. split; [assumption|]. repeat split; try lia.
        -- intros i Hi. destruct (Z.eq_dec i pos) as [->|Hne]; [eauto|].
           apply Hrun_c. lia.
        -- assumption.
      * exists pos. split; [reflexivity|]. repeat split; try lia.
        intros _. eauto.
    + rewrite skip_varint_loop_past by lia. exists pos.
      split; [reflexivity|]. repeat split; try lia.
Qed.

(** The scan over a complete varint stops on its last byte. *)
Lemma skip_varint_loop_complete (bs : list byte) :
  forall (pre post : list byte) (fuel : nat),
    is_varint bs = true -> (length bs <= fuel)%nat ->
    skip_varint_loop fuel (pre ++ bs ++ post) (len pre) =
      Ret (len pre + len bs - 1).
Proof.
  induction bs as [|b bs IH]; intros pre post fuel Hv Hfuel.
  - discriminate.
  - destruct fuel as [|fuel]; [cbn in Hfuel; lia|].
    pose proof (len_nonneg pre). pose proof (len_nonneg (bs ++ post)).
    rewrite (skip_varint_loop_round _ _ _ b).
    2: { cbn [app]. rewrite len_app, len_cons. lia. }
    2: { apply lookup_middle_byte. }
    cbn [is_varint] in Hv. destruct bs as [|b' bs].
    + apply negb_true_iff in Hv. rewrite Hv, len_cons, len_nil.
      f_equal. lia.
    + apply andb_true_iff in Hv as [Hc Hv]. rewrite Hc.
      replace (len pre + 1) with (len (pre ++ [b]))
        by (rewrite len_app, len_cons, len_nil; lia).
      replace (pre ++ (b :: b' :: bs) ++ post)
        with ((pre ++ [b]) ++ (b' :: bs) ++ post)
        by (rewrite <- app_assoc; reflexivity).
      rewrite IH; try assumption.
      2: { cbn [length] in *. lia. }
      rewrite len_app, (len_cons b (b' :: bs)), (len_cons b []), len_nil.
      f_equal. lia.
Qed.

(** The scan over continuation bytes that reach the end stops at the end. *)
Lemma skip_varint_loop_cut (bs : list byte) :
  forall (pre : list byte) (fuel : nat),
    forallb continuation bs = true -> (length bs <= fuel)%nat ->
    skip_varint_loop fuel (pre ++ bs) (len pre) = Ret (len pre + len bs).
Proof.
  induction bs as [|b bs IH]; intros pre fuel Hc Hfuel.
  - rewrite app_nil_r, skip_varint_loop_past by lia.
    rewrite len_nil. f_equal. lia.
  - destruct fuel as [|fuel]; [cbn in Hfuel; lia|].
    pose proof (len_nonneg pre). pose proof (len_nonneg bs).
    rewrite (skip_varint_loop_round _ _ _ b).
    2: { rewrite len_app, len_cons. lia. }
    2: { apply lookup_middle_byte. }
    cbn [forallb] in Hc. apply andb_true_iff in Hc as [Hb Hc]. rewrite Hb.
    replace (len pre + 1) with (len (pre ++ [b]))
      by (rewrite len_app, len_cons, len_nil; lia).
    replace (pre ++ b :: bs) with ((pre ++ [b]) ++ bs)
      by (rewrite <- app_assoc; reflexivity).
    rewrite IH; try assumption.
    2: { cbn [length] in *. lia. }
    rewrite len_app, (len_cons b bs), (len_cons b []), len_nil.
    f_equal. lia.
Qed.

Lemma skip_field_wire_type_0 (data : list byte) (pos : Z) :
  0 <= pos ->
  exists stop,
    skip_field data pos 0 = Ret (stop + 1) /\ scan_stops data pos stop.
Proof.
  intros Hpos. unfold skip_field. cbn [Z.eqb].
  destruct (skip_varint_loop_stops (Z.to_nat (len data - pos)) data pos)
    as (stop & -> & Hstop); try lia.
  exists stop. split; [reflexivity | assumption].
Qed.

Lemma skip_field_wire_type_2 (data : list byte) (pos : Z) :
  0 <= pos ->
  exists length new_pos,
    decode_varint data pos = Ret (length, new_pos)
    /\ skip_field data pos 2 = Ret (new_pos + length)
    /\ 0 <= length /\ pos <= new_pos.
Proof.
  intros Hpos. unfold skip_field. cbn [Z.eqb].
  destruct (decode_varint_returns data pos Hpos) as (v & p & -> & Hv & Hp & _).
  exists v, p. repeat split; try lia.
Qed.

Lemma skip_field_unknown (data : list byte) (pos wire_type : Z) :
  known_wire_type wire_type = false ->
  skip_field data pos wire_type = Raise ValueError.
Proof.
  unfold known_wire_type, skip_field. intros H.
  repeat (apply orb_false_iff in H as [H ?]).
  repeat match goal with E : (_ =? _) = false |- _ => rewrite E; clear E end.
  reflexivity.
Qed.

(** For the four wire types [skip_field] returns, and never moves back. *)
Lemma skip_field_returns (data : list byte) (pos wire_type : Z) :
  0 <= pos -> known_wire_type wire_type = true ->
  exists pos',
    skip_field data pos wire_type = Ret pos'
    /\ pos + min_advance wire_type <= pos'.
Proof.
  intros Hpos Hwt. unfold known_wire_type in Hwt.
  repeat (apply orb_true_iff in Hwt as [Hwt|Hwt]);
    apply Z.eqb_eq in Hwt; subst wire_type.
  - destruct (skip_field_wire_type_0 data pos Hpos) as (stop & -> & Hs & _).
    exists (stop + 1). split; [reflexivity|]. cbn. lia.
  - exists (pos + 8). split; [reflexivity|]. cbn. lia.
  - destruct (skip_field_wire_type_2 data pos Hpos)
      as (v & p & _ & -> & Hv & Hp).
    exists (p + v). split; [reflexivity|]. cbn. lia.
  - exists (pos + 4). split; [reflexivity|]. cbn. lia.
Qed.

(** Whatever the wire type, a returned offset is not before the one given. *)
Lemma skip_field_forward (data : list byte) (pos wire_type pos' : Z) :
  0 <= pos ->
  skip_field data pos wire_type = Ret pos' ->
  pos + min_advance wire_type <= pos'.
Proof.
  intros Hpos Hskip.
  destruct (known_wire_type wire_type) eqn:Hwt.
  - destruct (skip_field_returns data pos wire_type Hpos Hwt) as (p & Hp & Hle).
    congruence.
  - rewrite skip_field_unknown in Hskip by assumption. discriminate.
Qed.

Lemma skip_field_no_fuel (data : list byte) (pos wire_type : Z) :
  0 <= pos -> skip_field data pos wire_type <> OutOfFuel.
Proof.
  intros Hpos. destruct (known_wire_type wire_type) eqn:Hwt.
  - destruct (skip_field_returns data pos wire_type Hpos Hwt) as (p & -> & _).
    discriminate.
  - rewrite skip_field_unknown by assumption. discriminate.
Qed.

(** ** The raw walk: the loop and the relation agree *)

Lemma field_numbers_loop_past (fuel : nat) (raw_data : list byte) (pos : Z)
    (field_numbers : list Z) :
  len raw_data <= pos ->
  field_numbers_loop fuel raw_data pos field_numbers = Ret field_numbers.
Proof.
  intros H. destruct fuel; cbn [field_numbers_loop];
    destruct (Z.ltb_spec pos (len raw_data)); try lia; reflexivity.
Qed.

(** With fuel for the bytes left the loop returns, along a [walk]. *)
Lemma field_numbers_loop_walk (fuel : nat) :
  forall (raw_data : list byte) (pos : Z) (field_numbers : list Z),
    0 <= pos -> len raw_data - pos <= Z.of_nat fuel ->
    exists out,
      field_numbers_loop fuel raw_data pos field_numbers = Ret out
      /\ walk raw_data pos field_numbers out.
Proof.
  induction fuel as [|fuel IH]; intros raw_data pos field_numbers Hpos Hfuel.
  - rewrite field_numbers_loop_past by lia.
    exists field_numbers. split; [reflexivity|]. apply walk_exit. lia.
  - destruct (Z.lt_ge_cases pos (len raw_data)) as [Hin|Hout].
    + cbn [field_numbers_loop].
      destruct (Z.ltb_spec pos (len raw_data)); [|lia].
      destruct (decode_varint_returns raw_data pos Hpos)
        as (tag & new_pos & Hdec & _ & Hnew & Hstep).
      rewrite Hdec. cbn [mbind outcome_bind].
      destruct (skip_field raw_data new_pos (Z.land tag 7)) as [pos'|e|] eqn:Hskip.
      * apply skip_field_forward in Hskip as Hfwd; [|lia].
        assert (0 <= min_advance (Z.land tag 7)).
        { unfold min_advance.
          repeat match goal with |- context [if ?c then _ else _] => destruct c end;
            lia. }
        destruct (IH raw_data pos' (field_numbers ++ [Z.shiftr tag 3]))
          as (out & Hrun & Hwalk); try lia.
        exists out. split; [assumption|].
        eapply walk_skip; eassumption.
      * exists (field_numbers ++ [Z.shiftr tag 3]). split; [reflexivity|].
        eapply walk_break; eassumption.
      * exfalso. eapply skip_field_no_fuel; [|exact Hskip]. lia.
    + rewrite field_numbers_loop_past by lia.
      exists field_numbers. split; [reflexivity|]. apply walk_exit. lia.
Qed.

(** The loop variables determine the outcome of the walk. *)
Lemma walk_deterministic (raw_data : list byte) (pos : Z)
    (field_numbers out1 out2 : list Z) :
  walk raw_data pos field_numbers out1 ->
  walk raw_data pos field_numbers out2 ->
  out1 = out2.
Proof.
  intros H1. revert out2.
  induction H1 as [pos fns Hend
                  |pos fns tag new_pos pos' out Hin Hdec Hskip _ IH
                  |pos fns tag new_pos e Hin Hdec Hskip];
    intros out2 H2; inversion H2; subst; try lia; try reflexivity.
  - assert (tag0 = tag /\ new_pos0 = new_pos) as [-> ->]
      by (split; congruence).
    assert (pos'0 = pos') as -> by congruence.
    apply IH. assumption.
  - assert (tag0 = tag /\ new_pos0 = new_pos) as [-> ->]
      by (split; congruence).
    congruence.
  - assert (tag0 = tag /\ new_pos0 = new_pos) as [-> ->]
      by (split; congruence).
    congruence.
  - assert (tag0 = tag /\ new_pos0 = new_pos) as [-> ->]
      by (split; congruence).
    reflexivity.
Qed.

Lemma raw_field_numbers_walk (raw_data : list byte) :
  exists out,
    raw_field_numbers raw_data = Ret out /\ walk raw_data 0 [] out.
Proof.
  unfold raw_field_numbers.
  apply field_numbers_loop_walk; [lia|]. unfold len. lia.
Qed.

Lemma walk_raw_field_numbers (raw_data : list byte) (out : list Z) :
  walk raw_data 0 [] out -> raw_field_numbers raw_data = Ret out.
Proof.
  intros Hw. destruct (raw_field_numbers_walk raw_data) as (out' & -> & Hw').
  f_equal. eapply walk_deterministic; eassumption.
Qed.


(** ** The raw walk over well-formed fields *)

Lemma tag_parts (tag : Z) :
  Z.shiftr tag 3 = tag / 8 /\ Z.land tag 0x7 = tag mod 8.
Proof.
  split.
  - rewrite Z.shiftr_div_pow2 by lia. reflexivity.
  - change 0x7 with (Z.ones 3). rewrite Z.land_ones by lia. reflexivity.
Qed.

(** On a well-formed field [skip_field] lands just past the payload. *)
Lemma skip_field_payload (f : wire_field) (pre post : list byte) :
  well_formed f = true ->
  skip_field (pre ++ wire_payload f ++ post) (len pre) (wire_type f) =
    Ret (len pre + len (wire_payload f)).
Proof.
  intros Hwf. unfold well_formed in Hwf.
  apply andb_true_iff in Hwf as [_ Hwf].
  pose proof (len_nonneg pre) as Hpre.
  destruct f as [t v|t b|t l b|t b]; cbn [wire_payload] in *;
    repeat (apply andb_true_iff in Hwf as [Hwf ?]);
    apply Z.eqb_eq in Hwf; rewrite Hwf; unfold skip_field; cbn [Z.eqb].
  - rewrite skip_varint_loop_complete; try assumption.
    + cbn [mbind outcome_bind]. f_equal. lia.
    + rewrite !len_app. unfold len. lia.
  - f_equal. apply Z.eqb_eq in H. lia.
  - rewrite <- app_assoc. rewrite decode_varint_complete by assumption.
    cbn [mbind outcome_bind]. apply Z.eqb_eq in H.
    rewrite len_app. f_equal. lia.
  - f_equal. apply Z.eqb_eq in H. lia.
Qed.

(** One round of the walk over a well-formed field: its number is recorded
    and the walk goes on at the next tag. *)
Lemma walk_field (f : wire_field) (pre post : list byte)
    (field_numbers out : list Z) :
  well_formed f = true ->
  walk (pre ++ wire_bytes f ++ post) (len pre + len (wire_bytes f))
       (field_numbers ++ [field_number f]) out ->
  walk (pre ++ wire_bytes f ++ post) (len pre) field_numbers out.
Proof.
  intros Hwf Hrest.
  assert (is_varint (wire_tag f) = true) as Htag.
  { unfold well_formed in Hwf. apply andb_true_iff in Hwf. tauto. }
  assert (0 < len (wire_tag f)) as Hlen.
  { destruct (wire_tag f); [discriminate|]. rewrite len_cons.
    pose proof (len_nonneg l). lia. }
  pose proof (len_nonneg pre). pose proof (len_nonneg (wire_payload f)).
  pose proof (len_nonneg post).
  destruct (tag_parts (varint_value (wire_tag f))) as [Hnum Hwt].
  unfold wire_bytes in *. rewrite <- app_assoc in *.
  eapply walk_skip.
  - rewrite !len_app. lia.
  - apply decode_varint_complete. assumption.
  - rewrite Hwt. fold (wire_type f).
    rewrite app_assoc, <- len_app. apply skip_field_payload. assumption.
  - rewrite Hnum. fold (field_number f).
    rewrite len_app. rewrite len_app in Hrest.
    replace (len pre + len (wire_tag f) + len (wire_payload f))
      with (len pre + (len (wire_tag f) + len (wire_payload f))) by lia.
    exact Hrest.
Qed.

Lemma serialize_cons (f : wire_field) (fs : list wire_field) :
  serialize (f :: fs) = wire_bytes f ++ serialize fs.
Proof. reflexivity. Qed.

(** The walk over a run of well-formed fields records their numbers in wire
    order and goes on with whatever follows. *)
Lemma walk_fields (fs : list wire_field) :
  forall (pre post : list byte) (field_numbers out : list Z),
    forallb well_formed fs = true ->
    walk (pre ++ serialize fs ++ post) (len pre + len (serialize fs))
         (field_numbers ++ map field_number fs) out ->
    walk (pre ++ serialize fs ++ post) (len pre) field_numbers out.
Proof.
  induction fs as [|f fs IH]; intros pre post fns out Hwf Hrest.
  - cbn [serialize map concat] in *.
    rewrite len_nil, Z.add_0_r, app_nil_r in Hrest. exact Hrest.
  - cbn [forallb] in Hwf. apply andb_true_iff in Hwf as [Hf Hfs].
    rewrite serialize_cons in *. rewrite <- app_assoc in *.
    apply walk_field; [assumption|].
    rewrite (app_assoc pre), <- len_app.
    apply IH; [assumption|].
    rewrite <- app_assoc, <- app_assoc.
    cbn [map] in Hrest.
    replace ((fns ++ [field_number f]) ++ map field_number fs)
      with (fns ++ field_number f :: map field_number fs)
      by (rewrite <- app_assoc; reflexivity).
    rewrite !len_app in *.
    replace (len pre + len (wire_bytes f) + len (serialize fs))
      with (len pre + (len (wire_bytes f) + len (serialize fs))) by lia.
    exact Hrest.
Qed.

Lemma walk_serialize (fs : list wire_field) (rest : list byte) (out : list Z) :
  forallb well_formed fs = true ->
  walk (serialize fs ++ rest) (len (serialize fs)) (map field_number fs) out ->
  walk (serialize fs ++ rest) 0 [] out.
Proof.
  intros Hwf Hrest.
  apply (walk_fields fs [] rest [] out Hwf).
  rewrite len_nil. cbn [app]. exact Hrest.
Qed.

(** ** The unknown-field report *)




Lemma unknown_fields_set (field_numbers : list Z) :
  list_to_set (filter (fun f => f ∉ known_field_nums) field_numbers)
  = (list_to_set field_numbers ∖ known_field_nums : gset Z).
Proof.
  apply set_eq. intros x.
  rewrite elem_of_difference, !elem_of_list_to_set, list_elem_of_filter.
  tauto.
Qed.


(** ** Converting integers to text *)

Lemma format_int_small (n : Z) :
  Z.abs n < 10 ^ max_str_digits -> format_int n = Ret (str_of_int n).
Proof.
  intros Hn. unfold format_int.
  destruct (Z.leb_spec (10 ^ max_str_digits) (Z.abs n)); [lia | reflexivity].
Qed.

Lemma format_int_large (n : Z) :
  10 ^ max_str_digits <= Z.abs n -> format_int n = Raise ValueError.
Proof.
  intros Hn. unfold format_int.
  destruct (Z.leb_spec (10 ^ max_str_digits) (Z.abs n)); [reflexivity | lia].
Qed.

Lemma uint32_below_limit : 2 ^ 32 < 10 ^ max_str_digits.
Proof.
  apply Z.lt_le_trans with (10 ^ 10); [reflexivity|].
  apply Z.pow_le_mono_r; unfold max_str_digits; lia.
Qed.

(** A [uint32] is always converted. *)
Lemma format_int_uint32 (v : Z) :
  0 <= v < 2 ^ 32 -> format_int v = Ret (str_of_int v).
Proof.
  intros Hv. apply format_int_small. pose proof uint32_below_limit. lia.
Qed.





Lemma unknown_fields_report_by_set (field_numbers : list Z) :
  unknown_fields_report field_numbers
  = let unknown : gset Z := list_to_set field_numbers ∖ known_field_nums in
    if decide (unknown = ∅) then None else Some (sorted unknown).
Proof.
  cbn zeta. unfold unknown_fields_report. rewrite <- unknown_fields_set.
  destruct (filter _ field_numbers) as [|x l].
  - rewrite decide_True; reflexivity.
  - rewrite decide_False; [reflexivity|]. set_solver.
Qed.




(** ** One round of the walk, and bounds on what it collects *)

Lemma min_advance_nonneg (wire_type : Z) : 0 <= min_advance wire_type.
Proof.
  unfold min_advance.
  repeat match goal with |- context [if ?c then _ else _] => destruct c end;
    lia.
Qed.

(** One round of the loop, started inside the buffer at [0 <= pos]. *)
Lemma round_forward (raw_data : list byte) (pos tag new_pos : Z) :
  0 <= pos < len raw_data ->
  decode_varint raw_data pos = Ret (tag, new_pos) ->
  0 <= tag /\ pos + 1 <= new_pos
  /\ forall pos',
       skip_field raw_data new_pos (Z.land tag 0x7) = Ret pos' -> new_pos <= pos'.
Proof.
  intros Hpos Hdec.
  destruct (decode_varint_returns raw_data pos ltac:(lia))
    as (v & p & Hdec' & Hv & _ & Hstep).
  assert (v = tag /\ p = new_pos) as [-> ->] by (split; congruence).
  split; [assumption|]. split; [lia|].
  intros pos' Hskip. apply skip_field_forward in Hskip; [|lia].
  pose proof (min_advance_nonneg (Z.land tag 7)). lia.
Qed.

Lemma walk_bounded (raw_data : list byte) (pos : Z)
    (field_numbers out : list Z) :
  walk raw_data pos field_numbers out ->
  0 <= pos ->
  Forall (fun f => 0 <= f) field_numbers ->
  Forall (fun f => 0 <= f) out
  /\ Z.of_nat (length out)
     <= Z.of_nat (length field_numbers) + Z.max 0 (len raw_data - pos).
Proof.
  induction 1 as [pos fns Hend
                 |pos fns tag new_pos pos' out Hin Hdec Hskip _ IH
                 |pos fns tag new_pos e Hin Hdec Hskip]; intros Hpos Hall.
  - split; [assumption | lia].
  - destruct (round_forward raw_data pos tag new_pos ltac:(lia) Hdec)
      as (Htag & Hnew & Hfwd).
    specialize (Hfwd pos' Hskip).
    destruct IH as [Hout Hlen]; [lia| |].
    + apply Forall_app. split; [assumption|].
      constructor; [|constructor]. apply Z.shiftr_nonneg. assumption.
    + split; [assumption|]. rewrite length_app in Hlen. cbn [length] in Hlen.
      lia.
  - destruct (round_forward raw_data pos tag new_pos ltac:(lia) Hdec)
      as (Htag & _ & _).
    split.
    + apply Forall_app. split; [assumption|].
      constructor; [|constructor]. apply Z.shiftr_nonneg. assumption.
    + rewrite length_app. cbn [length]. lia.
Qed.

Lemma decode_varint_loop_below (fuel : nat) :
  forall (data : list byte) (result shift pos value new_pos : Z),
    0 <= pos -> 0 <= shift -> 0 <= result < 2 ^ shift ->
    decode_varint_loop fuel data result shift pos = Ret (value, new_pos) ->
    pos <= new_pos /\ 0 <= value < 2 ^ (shift + 7 * (new_pos - pos)).
Proof.
  induction fuel as [|fuel IH];
    intros data result shift pos value new_pos Hpos Hs Hr Hrun.
  - cbn [decode_varint_loop] in Hrun.
    destruct (pos <? len data); [discriminate|].
    injection Hrun as <- <-.
    replace (shift + 7 * (pos - pos)) with shift by lia. lia.
  - destruct (Z.lt_ge_cases pos (len data)) as [Hin|Hout].
    + destruct (getitem_inside data pos) as (b & Hb & _); [lia|].
      rewrite (decode_varint_loop_round _ _ _ _ _ b) in Hrun
        by (lia || assumption).
      cbn zeta in Hrun.
      destruct (group_fits result shift b Hs Hr) as [Heq Hfit].
      rewrite Heq in Hrun.
      destruct (continuation b).
      * apply IH in Hrun as [Hp Hv]; try lia.
        split; [lia|].
        replace (shift + 7 * (new_pos - pos))
          with (shift + 7 + 7 * (new_pos - (pos + 1))) by lia.
        exact Hv.
      * injection Hrun as <- <-.
        replace (shift + 7 * (pos + 1 - pos)) with (shift + 7) by lia. lia.
    + rewrite decode_varint_loop_past in Hrun by lia.
      injection Hrun as <- <-.
      replace (shift + 7 * (pos - pos)) with shift by lia. lia.
Qed.

(** ** [decode_varint] and [skip_field] at negative offsets *)

Lemma getitem_wraps (data : list byte) (i : Z) :
  - len data <= i < len data -> exists v, getitem data i = Ret v.
Proof.
  intros Hi. unfold getitem.
  set (j := if i <? 0 then i + len data else i).
  assert (0 <= j < len data) as Hj
    by (subst j; destruct (Z.ltb_spec i 0); lia).
  destruct (Z.leb_spec 0 j); [|lia].
  destruct (Z.ltb_spec j (len data)); [|lia].
  cbn [andb].
  destruct (data !! Z.to_nat j) as [b|] eqn:Hb; [eauto|].
  apply lookup_ge_None in Hb. unfold len in Hj. lia.
Qed.

Lemma decode_varint_loop_wraps (fuel : nat) :
  forall (data : list byte) (result shift pos : Z),
    - len data <= pos -> len data - pos <= Z.of_nat fuel ->
    exists value new_pos,
      decode_varint_loop fuel data result shift pos = Ret (value, new_pos).
Proof.
  induction fuel as [|fuel IH]; intros data result shift pos Hpos Hfuel.
  - rewrite decode_varint_loop_past by lia. eauto.
  - cbn [decode_varint_loop].
    destruct (Z.ltb_spec pos (len data)) as [Hin|Hout]; [|eauto].
    destruct (getitem_wraps data pos ltac:(lia)) as (v & ->).
    cbn [mbind outcome_bind].
    destruct (Z.land v 128 =? 0); [eauto|].
    apply IH; lia.
Qed.

Lemma skip_varint_loop_wraps (fuel : nat) :
  forall (data : list byte) (pos : Z),
    - len data <= pos -> len data - pos <= Z.of_nat fuel ->
    exists stop, skip_varint_loop fuel data pos = Ret stop.
Proof.
  induction fuel as [|fuel IH]; intros data pos Hpos Hfuel.
  - rewrite skip_varint_loop_past by lia. eauto.
  - cbn [skip_varint_loop].
    destruct (Z.ltb_spec pos (len data)) as [Hin|Hout]; [|eauto].
    destruct (getitem_wraps data pos ltac:(lia)) as (v & ->).
    cbn [mbind outcome_bind].
    destruct (Z.land v 128 =? 0); [eauto|].
    apply IH; lia.
Qed.

Lemma decode_varint_wraps (data : list byte) (pos : Z) :
  - len data <= pos ->
  exists value new_pos, decode_varint data pos = Ret (value, new_pos).
Proof.
  intros Hpos. unfold decode_varint. apply decode_varint_loop_wraps; lia.
Qed.

Lemma skip_field_wraps (data : list byte) (pos wire_type : Z) :
  - len data <= pos -> known_wire_type wire_type = true ->
  exists pos', skip_field data pos wire_type = Ret pos'.
Proof.
  intros Hpos Hwt. unfold known_wire_type in Hwt.
  repeat (apply orb_true_iff in Hwt as [Hwt|Hwt]);
    apply Z.eqb_eq in Hwt; subst wire_type; unfold skip_field; cbn [Z.eqb].
  - destruct (skip_varint_loop_wraps (Z.to_nat (len data - pos)) data pos)
      as (stop & ->); try lia.
    cbn [mbind outcome_bind]. eauto.
  - eauto.
  - destruct (decode_varint_wraps data pos Hpos) as (v & p & ->).
    cbn [mbind outcome_bind]. eauto.
  - eauto.
Qed.

Lemma getitem_before_start (data : list byte) (pos : Z) :
  pos < - len data -> getitem data pos = Raise IndexError.
Proof.
  intros Hpos. pose proof (len_nonneg data). unfold getitem.
  destruct (Z.ltb_spec pos 0); [|lia].
  destruct (Z.leb_spec 0 (pos + len data)); [lia|].
  reflexivity.
Qed.

Lemma decode_varint_before_start (data : list byte) (pos : Z) :
  pos < - len data -> decode_varint data pos = Raise IndexError.
Proof.
  intros Hpos. pose proof (len_nonneg data). unfold decode_varint.
  destruct (Z.to_nat (len data - pos)) as [|fuel] eqn:Hfuel; [lia|].
  cbn [decode_varint_loop].
  destruct (Z.ltb_spec pos (len data)); [|lia].
  rewrite getitem_before_start by assumption. reflexivity.
Qed.

Lemma skip_field_before_start (data : list byte) (pos wire_type : Z) :
  pos < - len data -> wire_type = 0 \/ wire_type = 2 ->
  skip_field data pos wire_type = Raise IndexError.
Proof.
  intros Hpos [-> | ->]; pose proof (len_nonneg data);
    unfold skip_field; cbn [Z.eqb].
  - destruct (Z.to_nat (len data - pos)) as [|fuel] eqn:Hfuel; [lia|].
    cbn [skip_varint_loop].
    destruct (Z.ltb_spec pos (len data)); [|lia].
    rewrite getitem_before_start by assumption. reflexivity.
  - rewrite decode_varint_before_start by assumption. reflexivity.
Qed.

(** ** Which packets are printed, and which end the loop *)









(** * Main results *)

Example encode_varint_boundaries :
  encode_varint 0 = [x00] /\ encode_varint 127 = [x7f]
  /\ encode_varint 128 = [x80; x01] /\ encode_varint 300 = [xac; x02]
  /\ encode_varint 16383 = [xff; x7f]
  /\ encode_varint 16384 = [x80; x80; x01].
Proof. repeat split; reflexivity. Qed.

(** A field number that occurs twice on the wire is listed twice. *)
Example raw_walk_repeated_field :
  raw_field_numbers [x08; x01; x10; x02; x08; x03] = Ret [1; 2; 1].
Proof. reflexivity. Qed.

(** Python's negative indexes: [data[-1]] is the last byte, and the empty
    buffer has none.  The offsets of this program start at 0 and only grow;
    where a statement below needs it, [0 <= pos] is a hypothesis. *)
Example getitem_negative :
  getitem [x08; xac] (-1) = Ret 172 /\ getitem [] (-1) = Raise IndexError.
Proof. split; reflexivity. Qed.

Example decode_varint_negative_index :
  decode_varint [x01] (-1) = Ret (1, 0)
  /\ decode_varint [] (-1) = Raise IndexError.
Proof. split; reflexivity. Qed.

(** C1: on a buffer made of well-formed (tag, payload) pairs with wire types
    0, 1, 2 and 5 the raw walk of [print_packet] returns the field numbers on
    the wire, one per field and in wire order, none dropped and none added;
    on the scenario buffer it returns [1, 2], and [decode_varint] at the
    payload of field 1 yields 300. *)
Theorem raw_walk_well_formed :
  (forall fs : list wire_field,
      forallb well_formed fs = true ->
      raw_field_numbers (serialize fs) = Ret (map field_number fs))
  /\ forallb well_formed scenario_fields = true
  /\ serialize scenario_fields = scenario_buffer
  /\ raw_field_numbers scenario_buffer = Ret [1; 2]
  /\ decode_varint scenario_buffer 1 = Ret (300, 3).
Proof.
  split; [|split; [|split; [|split]]; reflexivity].
  intros fs Hwf. apply walk_raw_field_numbers.
  rewrite <- (app_nil_r (serialize fs)).
  apply walk_serialize; [assumption|].
  apply walk_exit. rewrite app_nil_r. lia.
Qed.

Lemma raw_walk_well_formed_witness :
  forallb well_formed scenario_fields = true
  /\ raw_field_numbers (serialize scenario_fields) = Ret [1; 2].
Proof.
  split; [reflexivity|].
  apply (proj1 raw_walk_well_formed scenario_fields). reflexivity.
Defined.

(** C2: encoding an unsigned integer as a base-128 little-endian varint and
    running [decode_varint] on the bytes from offset 0 returns the integer
    and the offset just past the varint. *)
Theorem varint_round_trip (n : Z) :
  0 <= n ->
  decode_varint (encode_varint n) 0 = Ret (n, len (encode_varint n)).
Proof.
  intros Hn. destruct (encode_varint_spec n Hn) as [Hv Hval].
  pose proof (decode_varint_complete [] (encode_varint n) [] Hv) as Hdec.
  cbn [app] in Hdec. rewrite app_nil_r, len_nil, Hval in Hdec.
  exact Hdec.
Qed.

Lemma varint_round_trip_witness :
  decode_varint (encode_varint 127) 0 = Ret (127, 1)
  /\ decode_varint (encode_varint 128) 0 = Ret (128, 2)
  /\ decode_varint (encode_varint 16383) 0 = Ret (16383, 2)
  /\ decode_varint (encode_varint 16384) 0 = Ret (16384, 3).
Proof.
  split; [|split; [|split]].
  - apply (varint_round_trip 127). lia.
  - apply (varint_round_trip 128). lia.
  - apply (varint_round_trip 16383). lia.
  - apply (varint_round_trip 16384). lia.
Defined.

(** C3: the policy of [skip_field] per wire type.  Type 0: scan forward
    while the continuation bit is set, then one more byte; type 1: 8 bytes;
    type 2: decode a varint length and go that many bytes past it; type 5:
    4 bytes; any other wire type: a decode error. *)
Theorem skip_field_policy (data : list byte) (pos : Z) :
  0 <= pos ->
  (exists stop,
      skip_field data pos 0 = Ret (stop + 1) /\ scan_stops data pos stop)
  /\ skip_field data pos 1 = Ret (pos + 8)
  /\ (exists length new_pos,
        decode_varint data pos = Ret (length, new_pos)
        /\ skip_field data pos 2 = Ret (new_pos + length))
  /\ skip_field data pos 5 = Ret (pos + 4)
  /\ (forall wire_type,
        wire_type <> 0 -> wire_type <> 1 -> wire_type <> 2 -> wire_type <> 5 ->
        skip_field data pos wire_type = Raise ValueError).
Proof.
  intros Hpos.
  split; [|split; [|split; [|split]]]; try reflexivity.
  - apply skip_field_wire_type_0. assumption.
  - destruct (skip_field_wire_type_2 data pos Hpos) as (v & p & Hd & Hs & _).
    exists v, p. split; assumption.
  - intros wt H0 H1 H2 H5. apply skip_field_unknown. unfold known_wire_type.
    apply Z.eqb_neq in H0, H1, H2, H5. rewrite H0, H1, H2, H5. reflexivity.
Qed.

Lemma skip_field_policy_witness :
  skip_field scenario_buffer 1 1 = Ret 9
  /\ skip_field scenario_buffer 1 5 = Ret 5
  /\ skip_field scenario_buffer 1 3 = Raise ValueError.
Proof.
  pose proof (skip_field_policy scenario_buffer 1 ltac:(lia))
    as (_ & H1 & _ & H5 & Hother).
  split; [exact H1 | split; [exact H5 | apply Hother; lia]].
Defined.




(** C6: when the buffer ends before a byte without the continuation bit,
    [decode_varint] started inside the buffer stops at the end without
    raising, and returns the value of the groups read so far with the
    length of the buffer as the offset. *)
Theorem decode_varint_truncated (data : list byte) (pos : Z) :
  0 <= pos < len data ->
  forallb continuation (drop (Z.to_nat pos) data) = true ->
  decode_varint data pos
  = Ret (varint_value (drop (Z.to_nat pos) data), len data).
Proof.
  intros Hpos Hcont.
  pose proof (decode_varint_cut (take (Z.to_nat pos) data)
                (drop (Z.to_nat pos) data) Hcont) as Hdec.
  rewrite take_drop in Hdec.
  replace (len (take (Z.to_nat pos) data)) with pos in Hdec; [exact Hdec|].
  unfold len in *. rewrite length_take. lia.
Qed.

Lemma decode_varint_truncated_witness :
  decode_varint [x08; xac; x82] 1 = Ret (300, 3).
Proof.
  apply (decode_varint_truncated [x08; xac; x82] 1);
    [unfold len; cbn [length]; lia | reflexivity].
Defined.

(** C7: two runs of the raw walk on the same buffer end with the same field
    numbers: the outcome depends on the bytes of the buffer alone, and it is
    the one [raw_field_numbers] computes. *)
Theorem raw_walk_twice (raw_data : list byte) (out1 out2 : list Z) :
  walk raw_data 0 [] out1 ->
  walk raw_data 0 [] out2 ->
  out1 = out2 /\ raw_field_numbers raw_data = Ret out1.
Proof.
  intros H1 H2. split.
  - eapply walk_deterministic; eassumption.
  - apply walk_raw_field_numbers. assumption.
Qed.

Lemma walk_of_raw_field_numbers (raw_data : list byte) (out : list Z) :
  raw_field_numbers raw_data = Ret out -> walk raw_data 0 [] out.
Proof.
  intros Hrun. destruct (raw_field_numbers_walk raw_data) as (out' & Hrun' & Hw).
  congruence.
Qed.

Lemma raw_walk_twice_witness :
  [1; 2] = [1; 2] /\ raw_field_numbers scenario_buffer = Ret [1; 2].
Proof.
  apply (raw_walk_twice scenario_buffer [1; 2] [1; 2]);
    apply walk_of_raw_field_numbers; reflexivity.
Defined.

Lemma land_bit_set (v : Z) (i : Z) :
  0 <= i -> Z.testbit v i = true -> (Z.land v (2 ^ i) =? 0) = false.
Proof.
  intros Hi Hbit. apply Z.eqb_neq. intros Hz.
  apply (f_equal (fun x => Z.testbit x i)) in Hz.
  rewrite Z.land_spec, Hbit, Z.pow2_bits_true, Z.bits_0 in Hz by assumption.
  discriminate.
Qed.

(** C8: when [sequence_flags] is present with bits 0 and 1 set, the flags
    line names INCREMENTAL_STATE_CLEARED and then NEEDS_INCREMENTAL_STATE. *)
Theorem sequence_flags_both (v : Z) :
  Z.testbit v 0 = true ->
  Z.testbit v 1 = true ->
  sequence_flag_names v
  = ["INCREMENTAL_STATE_CLEARED"%string; "NEEDS_INCREMENTAL_STATE"%string]
  /\ print_sequence_flags (Some v)
     = Some ("  sequence_flags: " ++ str_of_int v
             ++ " (INCREMENTAL_STATE_CLEARED, NEEDS_INCREMENTAL_STATE)")%string.
Proof.
  intros H0 H1.
  assert (sequence_flag_names v
          = ["INCREMENTAL_STATE_CLEARED"%string;
             "NEEDS_INCREMENTAL_STATE"%string]) as Hnames.
  { unfold sequence_flag_names.
    change (Z.land v 1) with (Z.land v (2 ^ 0)).
    change (Z.land v 2) with (Z.land v (2 ^ 1)).
    rewrite (land_bit_set v 0), (land_bit_set v 1) by (lia || assumption).
    reflexivity. }
  split; [exact Hnames|].
  unfold print_sequence_flags. rewrite Hnames. reflexivity.
Qed.

Lemma sequence_flags_both_witness :
  print_sequence_flags (Some 3)
  = Some "  sequence_flags: 3 (INCREMENTAL_STATE_CLEARED, NEEDS_INCREMENTAL_STATE)"%string.
Proof.
  apply (proj2 (sequence_flags_both 3 eq_refl eq_refl)).
Defined.

(** C9: the raw walk terminates on every buffer.  A round that starts inside
    the buffer ends strictly further on: the tag takes at least one byte and
    [skip_field] returns no less than its offset plus the least advance of
    the wire type; so as many rounds as the buffer has bytes always suffice. *)
Theorem raw_walk_terminates :
  (forall (raw_data : list byte) (pos : Z),
      0 <= pos < len raw_data ->
      exists tag new_pos,
        decode_varint raw_data pos = Ret (tag, new_pos)
        /\ pos + 1 <= new_pos
        /\ forall pos',
             skip_field raw_data new_pos (Z.land tag 0x7) = Ret pos' ->
             new_pos + min_advance (Z.land tag 0x7) <= pos' /\ pos < pos')
  /\ (forall (raw_data : list byte) (fuel : nat) (pos : Z) (field_numbers : list Z),
        0 <= pos -> len raw_data - pos <= Z.of_nat fuel ->
        exists out,
          field_numbers_loop fuel raw_data pos field_numbers = Ret out)
  /\ (forall raw_data : list byte,
        exists out, raw_field_numbers raw_data = Ret out).
Proof.
  split; [|split].
  - intros raw_data pos Hpos.
    destruct (decode_varint_returns raw_data pos ltac:(lia))
      as (tag & new_pos & Hdec & _ & _ & Hstep).
    exists tag, new_pos. split; [assumption|]. split; [lia|].
    intros pos' Hskip.
    apply skip_field_forward in Hskip; [|lia].
    split; [assumption|].
    assert (0 <= min_advance (Z.land tag 7)).
    { unfold min_advance.
      repeat match goal with |- context [if ?c then _ else _] => destruct c end;
        lia. }
    lia.
  - intros raw_data fuel pos fns Hpos Hfuel.
    destruct (field_numbers_loop_walk fuel raw_data pos fns Hpos Hfuel)
      as (out & Hrun & _).
    exists out. assumption.
  - intros raw_data.
    destruct (raw_field_numbers_walk raw_data) as (out & Hrun & _).
    exists out. assumption.
Qed.

(** C10, as amended: [decode_varint] returns at every offset from
    [-len(data)] on (a negative offset indexes from the end of the buffer),
    with value 0 and the offset unchanged at or past the end, and raises
    [IndexError] below [-len(data)]; [skip_field] likewise returns for wire
    types 0, 1, 2 and 5 from [-len(data)] on, on truncated input too, and for
    wire types 1 and 5 at every offset, but raises [IndexError] for wire
    types 0 and 2 below [-len(data)]; the offset it returns can lie past the
    end (a truncated varint field gives the buffer length plus one); at such
    an offset indexing raises and the walk stops instead. *)
Theorem decode_skip_total :
  (forall (data : list byte) (pos : Z),
      - len data <= pos ->
      exists value new_pos, decode_varint data pos = Ret (value, new_pos))
  /\ (forall (data : list byte) (pos : Z),
        pos < - len data -> decode_varint data pos = Raise IndexError)
  /\ (forall (data : list byte) (pos : Z),
        len data <= pos -> decode_varint data pos = Ret (0, pos))
  /\ (forall (data : list byte) (pos wire_type : Z),
        - len data <= pos -> known_wire_type wire_type = true ->
        exists pos', skip_field data pos wire_type = Ret pos')
  /\ (forall (data : list byte) (pos : Z),
        skip_field data pos 1 = Ret (pos + 8)
        /\ skip_field data pos 5 = Ret (pos + 4))
  /\ (forall (data : list byte) (pos wire_type : Z),
        pos < - len data -> wire_type = 0 \/ wire_type = 2 ->
        skip_field data pos wire_type = Raise IndexError)
  /\ (forall (data : list byte) (pos : Z),
        0 <= pos <= len data ->
        forallb continuation (drop (Z.to_nat pos) data) = true ->
        skip_field data pos 0 = Ret (len data + 1))
  /\ skip_field [x08; x80] 1 0 = Ret 3
  /\ (forall (data : list byte) (pos : Z),
        len data <= pos -> getitem data pos = Raise IndexError)
  /\ (forall (raw_data : list byte) (fuel : nat) (pos : Z) (field_numbers : list Z),
        len raw_data <= pos ->
        field_numbers_loop fuel raw_data pos field_numbers = Ret field_numbers).
Proof.
  split; [|split; [|split; [|split; [|split; [|split; [|split; [|split; [|split]]]]]]]].
  - apply decode_varint_wraps.
  - apply decode_varint_before_start.
  - intros data pos Hpos. unfold decode_varint.
    apply decode_varint_loop_past. assumption.
  - apply skip_field_wraps.
  - intros data pos. split; reflexivity.
  - apply skip_field_before_start.
  - intros data pos Hpos Hcont. unfold skip_field. cbn [Z.eqb].
    pose proof (skip_varint_loop_cut (drop (Z.to_nat pos) data)
                  (take (Z.to_nat pos) data)
                  (Z.to_nat (len data - pos)) Hcont) as Hscan.
    rewrite take_drop in Hscan.
    assert (len (take (Z.to_nat pos) data) = pos) as Htake.
    { unfold len in *. rewrite length_take. lia. }
    assert (len (drop (Z.to_nat pos) data) = len data - pos) as Hdrop.
    { unfold len in *. rewrite length_drop. lia. }
    rewrite Htake, Hdrop in Hscan. rewrite Hscan.
    + cbn [mbind outcome_bind]. f_equal. lia.
    + unfold len in *. rewrite length_drop. lia.
  - reflexivity.
  - intros data pos Hpos. unfold getitem. pose proof (len_nonneg data).
    destruct (Z.ltb_spec pos 0); [lia|].
    destruct (Z.ltb_spec pos (len data)); [lia|].
    rewrite andb_false_r. reflexivity.
  - intros raw_data fuel pos fns Hpos.
    apply field_numbers_loop_past. assumption.
Qed.

(** On the empty buffer the offset -1 is below [-len(data)]: [data[-1]]
    raises; so does [skip_field] five bytes before a one-byte buffer. *)
Lemma decode_skip_total_counterexample :
  decode_varint [] (-1) = Raise IndexError
  /\ skip_field [x01] (-5) 0 = Raise IndexError
  /\ skip_field [x01] (-5) 2 = Raise IndexError.
Proof. split; [|split]; reflexivity. Qed.

Lemma decode_skip_total_witness :
  decode_varint scenario_buffer 8 = Ret (0, 8)
  /\ decode_varint scenario_buffer 100 = Ret (0, 100)
  /\ (exists value new_pos,
        decode_varint scenario_buffer (-8) = Ret (value, new_pos))
  /\ decode_varint scenario_buffer (-9) = Raise IndexError
  /\ skip_field [x08; x80; x80] 1 0 = Ret 4.
Proof.
  pose proof decode_skip_total
    as (Hwrap & Hbefore & Hpast & _ & _ & _ & Hcut & _).
  split; [|split; [|split; [|split]]].
  - apply (Hpast scenario_buffer 8).
    unfold scenario_buffer, len; cbn [length]; lia.
  - apply (Hpast scenario_buffer 100).
    unfold scenario_buffer, len; cbn [length]; lia.
  - apply (Hwrap scenario_buffer (-8)).
    unfold scenario_buffer, len; cbn [length]; lia.
  - apply (Hbefore scenario_buffer (-9)).
    unfold scenario_buffer, len; cbn [length]; lia.
  - apply (Hcut [x08; x80; x80] 1); [unfold len; cbn [length]; lia | reflexivity].
Defined.

Lemma raw_walk_terminates_witness :
  exists out, raw_field_numbers [x08; xac; x02; x1b; xff] = Ret out.
Proof.
  apply (proj2 (proj2 raw_walk_terminates)).
Defined.


(** * Further properties of the decoder *)

(** ** What is in front of an offset does not matter *)

Lemma getitem_moved (pre data : list byte) (pos : Z) :
  0 <= pos -> getitem (pre ++ data) (len pre + pos) = getitem data pos.
Proof.
  intros Hpos. unfold getitem. rewrite len_app.
  pose proof (len_nonneg pre) as Hpre.
  destruct (Z.ltb_spec (len pre + pos) 0); [lia|].
  destruct (Z.ltb_spec pos 0); [lia|].
  destruct (Z.leb_spec 0 (len pre + pos)); [|lia].
  destruct (Z.leb_spec 0 pos); [|lia].
  destruct (Z.ltb_spec pos (len data)) as [Hin|Hout].
  - destruct (Z.ltb_spec (len pre + pos) (len pre + len data)); [|lia].
    cbn [andb].
    replace (Z.to_nat (len pre + pos)) with (length pre + Z.to_nat pos)%nat
      by (unfold len; lia).
    rewrite lookup_app_r by lia.
    replace (length pre + Z.to_nat pos - length pre)%nat with (Z.to_nat pos)
      by lia.
    reflexivity.
  - destruct (Z.ltb_spec (len pre + pos) (len pre + len data)); [lia|].
    reflexivity.
Qed.

Lemma decode_varint_loop_moved (pre data : list byte) (fuel : nat) :
  forall result shift pos : Z,
    0 <= pos ->
    decode_varint_loop fuel (pre ++ data) result shift (len pre + pos)
    = moved (len pre) (decode_varint_loop fuel data result shift pos).
Proof.
  induction fuel as [|fuel IH]; intros result shift pos Hpos;
    cbn [decode_varint_loop]; rewrite len_app;
    destruct (Z.ltb_spec pos (len data));
    destruct (Z.ltb_spec (len pre + pos) (len pre + len data));
    try lia; try reflexivity.
  rewrite getitem_moved by assumption.
  destruct (getitem data pos) as [byte|e|]; cbn [mbind outcome_bind];
    try reflexivity.
  destruct (Z.land byte 128 =? 0).
  - unfold moved. cbn [mbind outcome_bind mret outcome_ret].
    f_equal. f_equal. lia.
  - replace (len pre + pos + 1) with (len pre + (pos + 1)) by lia.
    apply IH. lia.
Qed.

Lemma skip_varint_loop_moved (pre data : list byte) (fuel : nat) :
  forall pos : Z,
    0 <= pos ->
    skip_varint_loop fuel (pre ++ data) (len pre + pos)
    = moved_offset (len pre) (skip_varint_loop fuel data pos).
Proof.
  induction fuel as [|fuel IH]; intros pos Hpos;
    cbn [skip_varint_loop]; rewrite len_app;
    destruct (Z.ltb_spec pos (len data));
    destruct (Z.ltb_spec (len pre + pos) (len pre + len data));
    try lia; try reflexivity.
  rewrite getitem_moved by assumption.
  destruct (getitem data pos) as [byte|e|]; cbn [mbind outcome_bind];
    try reflexivity.
  destruct (Z.land byte 128 =? 0); [reflexivity|].
  replace (len pre + pos + 1) with (len pre + (pos + 1)) by lia.
  apply IH. lia.
Qed.

Lemma decode_varint_moved (pre data : list byte) (pos : Z) :
  0 <= pos ->
  decode_varint (pre ++ data) (len pre + pos)
  = moved (len pre) (decode_varint data pos).
Proof.
  intros Hpos. unfold decode_varint. rewrite len_app.
  replace (len pre + len data - (len pre + pos)) with (len data - pos) by lia.
  apply decode_varint_loop_moved. assumption.
Qed.

Lemma skip_field_moved (pre data : list byte) (pos wire_type : Z) :
  0 <= pos ->
  skip_field (pre ++ data) (len pre + pos) wire_type
  = moved_offset (len pre) (skip_field data pos wire_type).
Proof.
  intros Hpos. unfold skip_field.
  destruct (wire_type =? 0).
  - rewrite len_app.
    replace (len pre + len data - (len pre + pos)) with (len data - pos) by lia.
    rewrite skip_varint_loop_moved by assumption.
    destruct (skip_varint_loop _ data pos) as [stop|e|];
      cbn [moved_offset mbind outcome_bind mret outcome_ret]; try reflexivity.
    f_equal. lia.
  - destruct (wire_type =? 1).
    { cbn [moved_offset mbind outcome_bind mret outcome_ret]. f_equal. lia. }
    destruct (wire_type =? 2).
    { rewrite decode_varint_moved by assumption.
      destruct (decode_varint data pos) as [[v p]|e|];
        cbn [moved moved_offset mbind outcome_bind mret outcome_ret];
        try reflexivity.
      f_equal. lia. }
    destruct (wire_type =? 5); [|reflexivity].
    cbn [moved_offset mbind outcome_bind mret outcome_ret]. f_equal. lia.
Qed.

(** X1: [decode_varint] and [skip_field] work relative to the offset: with
    any bytes put in front of the buffer and the offset moved by their
    number, both give the same outcome, the returned offset moved alike. *)
Theorem offsets_are_relative (pre data : list byte) (pos wire_type : Z) :
  0 <= pos ->
  decode_varint (pre ++ data) (len pre + pos)
  = moved (len pre) (decode_varint data pos)
  /\ skip_field (pre ++ data) (len pre + pos) wire_type
     = moved_offset (len pre) (skip_field data pos wire_type).
Proof.
  intros Hpos. split.
  - apply decode_varint_moved. assumption.
  - apply skip_field_moved. assumption.
Qed.

Lemma offsets_are_relative_witness :
  decode_varint ([xff; xff] ++ scenario_buffer) 3 = Ret (300, 5)
  /\ skip_field ([xff; xff] ++ scenario_buffer) 6 2 = Ret 10.
Proof.
  split.
  - apply (proj1 (offsets_are_relative [xff; xff] scenario_buffer 1 0
                    ltac:(lia))).
  - apply (proj2 (offsets_are_relative [xff; xff] scenario_buffer 4 2
                    ltac:(lia))).
Defined.

(** ** The raw walk: what it composes with and what it can return *)

Lemma walk_moved (pre raw_data : list byte) (pos : Z)
    (field_numbers out : list Z) :
  walk raw_data pos field_numbers out ->
  0 <= pos ->
  walk (pre ++ raw_data) (len pre + pos) field_numbers out.
Proof.
  induction 1 as [pos fns Hend
                 |pos fns tag new_pos pos' out Hin Hdec Hskip _ IH
                 |pos fns tag new_pos e Hin Hdec Hskip]; intros Hpos.
  - apply walk_exit. rewrite len_app. lia.
  - destruct (round_forward raw_data pos tag new_pos ltac:(lia) Hdec)
      as (_ & Hnew & Hfwd).
    specialize (Hfwd pos' Hskip).
    eapply walk_skip.
    + rewrite len_app. lia.
    + rewrite decode_varint_moved, Hdec by assumption. reflexivity.
    + rewrite skip_field_moved, Hskip by lia. reflexivity.
    + apply IH. lia.
  - destruct (round_forward raw_data pos tag new_pos ltac:(lia) Hdec)
      as (_ & Hnew & _).
    eapply walk_break.
    + rewrite len_app. lia.
    + rewrite decode_varint_moved, Hdec by assumption. reflexivity.
    + rewrite skip_field_moved, Hskip by lia. reflexivity.
Qed.

Lemma walk_framed (raw_data : list byte) (pos : Z)
    (field_numbers out : list Z) :
  walk raw_data pos field_numbers out ->
  forall before : list Z,
    walk raw_data pos (before ++ field_numbers) (before ++ out).
Proof.
  induction 1 as [pos fns Hend
                 |pos fns tag new_pos pos' out Hin Hdec Hskip _ IH
                 |pos fns tag new_pos e Hin Hdec Hskip]; intros before.
  - apply walk_exit. assumption.
  - eapply walk_skip; try eassumption.
    rewrite <- app_assoc. apply IH.
  - rewrite app_assoc. eapply walk_break; eassumption.
Qed.

(** X2: the raw walk returns at most one field number per byte of the
    buffer, and no negative one. *)
Theorem raw_walk_bounded (raw_data : list byte) :
  exists field_numbers,
    raw_field_numbers raw_data = Ret field_numbers
    /\ (length field_numbers <= length raw_data)%nat
    /\ Forall (fun f => 0 <= f) field_numbers.
Proof.
  destruct (raw_field_numbers_walk raw_data) as (out & Hrun & Hw).
  exists out. split; [assumption|].
  destruct (walk_bounded raw_data 0 [] out Hw ltac:(lia) ltac:(constructor))
    as [Hall Hlen].
  split; [|assumption].
  cbn [length] in Hlen. unfold len in Hlen. lia.
Qed.

(** X3: after well-formed fields the walk goes on as if the rest of the
    buffer stood alone: the field numbers of [serialize fs ++ rest] are those
    of [fs] followed by the ones the walk returns on [rest], whatever
    [rest] holds. *)
Theorem raw_walk_concat (fs : list wire_field) (rest : list byte)
    (out : list Z) :
  forallb well_formed fs = true ->
  raw_field_numbers rest = Ret out ->
  raw_field_numbers (serialize fs ++ rest)
  = Ret (map field_number fs ++ out).
Proof.
  intros Hwf Hrest.
  destruct (raw_field_numbers_walk rest) as (out' & Hrun & Hw).
  assert (out' = out) as -> by congruence.
  apply walk_raw_field_numbers. apply walk_serialize; [assumption|].
  pose proof (walk_moved (serialize fs) rest 0 [] out Hw ltac:(lia)) as Hm.
  rewrite Z.add_0_r in Hm.
  pose proof (walk_framed _ _ _ _ Hm (map field_number fs)) as Hf.
  rewrite app_nil_r in Hf. exact Hf.
Qed.

Lemma raw_walk_concat_witness :
  raw_field_numbers (serialize scenario_fields ++ [x1b; x08; x01])
  = Ret [1; 2; 3].
Proof.
  apply (raw_walk_concat scenario_fields [x1b; x08; x01] [3]); reflexivity.
Defined.

(** ** [decode_varint]: more on what it returns *)

(** X4: a varint written by the encoder is read back wherever it sits in a
    buffer: with any bytes before and after it, [decode_varint] at its first
    byte returns the integer and the offset of the byte after it. *)
Theorem varint_round_trip_anywhere (pre post : list byte) (n : Z) :
  0 <= n ->
  decode_varint (pre ++ encode_varint n ++ post) (len pre)
  = Ret (n, len pre + len (encode_varint n)).
Proof.
  intros Hn. destruct (encode_varint_spec n Hn) as [Hv Hval].
  rewrite decode_varint_complete by assumption. rewrite Hval. reflexivity.
Qed.

Lemma varint_round_trip_anywhere_witness :
  decode_varint ([x08] ++ encode_varint 300 ++ [x12; x03]) 1 = Ret (300, 3).
Proof.
  apply (varint_round_trip_anywhere [x08] [x12; x03] 300). lia.
Defined.

(** X5: the offset [decode_varint] returns is never before the one given
    and never past the end of the buffer (or the offset given, if that is
    past the end), and the value has at most 7 bits per byte read: it is
    non-negative and below 2 ^ (7 * (new_pos - pos)), so a call that reads
    nothing returns 0. *)
Theorem decode_varint_value_bound (data : list byte) (pos value new_pos : Z) :
  0 <= pos ->
  decode_varint data pos = Ret (value, new_pos) ->
  pos <= new_pos <= Z.max pos (len data)
  /\ 0 <= value < 2 ^ (7 * (new_pos - pos)).
Proof.
  intros Hpos Hdec.
  destruct (decode_varint_returns data pos Hpos) as (v & p & Hdec' & _ & Hp & _).
  assert (p = new_pos) as -> by congruence.
  split; [exact Hp|].
  unfold decode_varint in Hdec.
  apply decode_varint_loop_below in Hdec; try lia.
  rewrite Z.add_0_l in Hdec. apply Hdec.
Qed.

Lemma decode_varint_value_bound_witness :
  1 <= 3 <= Z.max 1 (len scenario_buffer) /\ 0 <= 300 < 2 ^ (7 * (3 - 1)).
Proof.
  apply (decode_varint_value_bound scenario_buffer 1 300 3);
    [lia | reflexivity].
Defined.

(** X6: the offsets at which [decode_varint] returns.  From [-len(data)] on
    it returns (a negative offset reads from the end of the buffer, as
    Python indexes do); below [-len(data)] it raises [IndexError]. *)
Theorem decode_varint_domain (data : list byte) (pos : Z) :
  (- len data <= pos ->
   exists value new_pos, decode_varint data pos = Ret (value, new_pos))
  /\ (pos < - len data -> decode_varint data pos = Raise IndexError).
Proof.
  split; intros Hpos.
  - unfold decode_varint. apply decode_varint_loop_wraps; lia.
  - unfold decode_varint. pose proof (len_nonneg data) as Hlen.
    destruct (Z.to_nat (len data - pos)) as [|fuel] eqn:Hfuel; [lia|].
    cbn [decode_varint_loop].
    destruct (Z.ltb_spec pos (len data)); [|lia].
    unfold getitem.
    destruct (Z.ltb_spec pos 0); [|lia].
    destruct (Z.leb_spec 0 (pos + len data)); [lia|].
    reflexivity.
Qed.

Lemma decode_varint_domain_witness :
  (exists value new_pos,
      decode_varint [x08; xac; x02] (-2) = Ret (value, new_pos))
  /\ decode_varint [x08; xac; x02] (-4) = Raise IndexError.
Proof.
  split.
  - apply (proj1 (decode_varint_domain [x08; xac; x02] (-2))).
    unfold len; cbn [length]; lia.
  - apply (proj2 (decode_varint_domain [x08; xac; x02] (-4))).
    unfold len; cbn [length]; lia.
Defined.

(** ** [skip_field] next to [decode_varint] *)

Lemma scan_and_decode (fuel : nat) :
  forall (data : list byte) (result shift pos : Z),
    0 <= pos -> len data - pos <= Z.of_nat fuel ->
    exists value new_pos stop,
      decode_varint_loop fuel data result shift pos = Ret (value, new_pos)
      /\ skip_varint_loop fuel data pos = Ret stop
      /\ ((stop < len data /\ new_pos = stop + 1)
          \/ (len data <= stop /\ new_pos = stop)).
Proof.
  induction fuel as [|fuel IH]; intros data result shift pos Hpos Hfuel.
  - rewrite decode_varint_loop_past, skip_varint_loop_past by lia.
    eexists _, _, _. split; [reflexivity|]. split; [reflexivity|]. lia.
  - destruct (Z.lt_ge_cases pos (len data)) as [Hin|Hout].
    + destruct (getitem_inside data pos) as (b & Hb & _); [lia|].
      rewrite (decode_varint_loop_round _ _ _ _ _ b) by (lia || assumption).
      rewrite (skip_varint_loop_round _ _ _ b) by (lia || assumption).
      cbn zeta. destruct (continuation b).
      * apply IH; lia.
      * eexists _, _, _. split; [reflexivity|]. split; [reflexivity|]. lia.
    + rewrite decode_varint_loop_past, skip_varint_loop_past by lia.
      eexists _, _, _. split; [reflexivity|]. split; [reflexivity|]. lia.
Qed.

(** X7: skipping a varint field and decoding it end at the same offset
    whenever the varint is complete; when the buffer ends first (or the
    offset is at or past the end) [decode_varint] stops at the end and
    [skip_field] returns one more, an offset past the end. *)
Theorem skip_varint_agrees_with_decode (data : list byte) (pos : Z) :
  0 <= pos ->
  exists value new_pos skipped,
    decode_varint data pos = Ret (value, new_pos)
    /\ skip_field data pos 0 = Ret skipped
    /\ ((skipped <= len data /\ skipped = new_pos)
        \/ (len data < skipped /\ skipped = new_pos + 1)).
Proof.
  intros Hpos. unfold decode_varint, skip_field. cbn [Z.eqb].
  destruct (scan_and_decode (Z.to_nat (len data - pos)) data 0 0 pos)
    as (v & p & stop & -> & -> & Hcase); try lia.
  exists v, p, (stop + 1). split; [reflexivity|]. split; [reflexivity|]. lia.
Qed.

Lemma skip_varint_agrees_with_decode_witness :
  exists value new_pos skipped,
    decode_varint scenario_buffer 1 = Ret (value, new_pos)
    /\ skip_field scenario_buffer 1 0 = Ret skipped
    /\ ((skipped <= len scenario_buffer /\ skipped = new_pos)
        \/ (len scenario_buffer < skipped /\ skipped = new_pos + 1)).
Proof.
  apply (skip_varint_agrees_with_decode scenario_buffer 1). lia.
Defined.

(** X8: one well-formed field is framed exactly, wherever it sits: decoding
    its tag gives its field number and wire type and the offset of its
    payload, and [skip_field] from there returns the offset of the byte
    after the field, where the next tag starts. *)
Theorem field_framed (f : wire_field) (pre post : list byte) :
  well_formed f = true ->
  exists tag,
    decode_varint (pre ++ wire_bytes f ++ post) (len pre)
    = Ret (tag, len pre + len (wire_tag f))
    /\ Z.shiftr tag 3 = field_number f
    /\ Z.land tag 0x7 = wire_type f
    /\ skip_field (pre ++ wire_bytes f ++ post) (len pre + len (wire_tag f))
         (Z.land tag 0x7)
       = Ret (len pre + len (wire_bytes f)).
Proof.
  intros Hwf.
  assert (is_varint (wire_tag f) = true) as Htag.
  { unfold well_formed in Hwf. apply andb_true_iff in Hwf. tauto. }
  destruct (tag_parts (varint_value (wire_tag f))) as [Hnum Hwt].
  exists (varint_value (wire_tag f)).
  unfold wire_bytes. rewrite <- app_assoc.
  split; [apply decode_varint_complete; assumption|].
  split; [exact Hnum|]. split; [exact Hwt|].
  rewrite Hwt. fold (wire_type f).
  rewrite app_assoc, <- len_app, skip_field_payload by assumption.
  rewrite !len_app. f_equal. lia.
Qed.

Lemma field_framed_witness :
  exists tag,
    decode_varint ([xff] ++ wire_bytes (WLen [x12] [x03] [x61; x62; x63]) ++ [x08])
                  (len [xff])
    = Ret (tag, len [xff] + len [x12])
    /\ Z.shiftr tag 3 = 2
    /\ Z.land tag 0x7 = 2
    /\ skip_field ([xff] ++ wire_bytes (WLen [x12] [x03] [x61; x62; x63]) ++ [x08])
                  (len [xff] + len [x12]) (Z.land tag 0x7)
       = Ret (len [xff] + len (wire_bytes (WLen [x12] [x03] [x61; x62; x63]))).
Proof.
  apply (field_framed (WLen [x12] [x03] [x61; x62; x63]) [xff] [x08]).
  reflexivity.
Defined.

(** ** The raw walk at the end of a buffer that is cut short *)

(** The last round: when [skip_field] raises or returns an offset at or past
    the end, the field number of the tag is the last one recorded. *)
Lemma walk_last_round (raw_data : list byte) (pos tag new_pos : Z)
    (field_numbers : list Z) :
  0 <= pos < len raw_data ->
  decode_varint raw_data pos = Ret (tag, new_pos) ->
  (forall pos',
      skip_field raw_data new_pos (Z.land tag 0x7) = Ret pos' ->
      len raw_data <= pos') ->
  walk raw_data pos field_numbers (field_numbers ++ [Z.shiftr tag 3]).
Proof.
  intros Hpos Hdec Hpast.
  destruct (round_forward raw_data pos tag new_pos Hpos Hdec) as (_ & Hnew & _).
  destruct (skip_field raw_data new_pos (Z.land tag 7)) as [pos'|e|] eqn:Hskip.
  - eapply walk_skip; try eassumption; [lia|].
    apply walk_exit. apply Hpast. reflexivity.
  - eapply walk_break; try eassumption. lia.
  - exfalso. eapply skip_field_no_fuel; [|exact Hskip]. lia.
Qed.

(** X9: a last field whose payload is cut short is still recorded, and
    nothing is raised: after well-formed fields, a tag of wire type 0, 1 or
    5 followed by a varint without its final byte or by fewer bytes than
    the fixed width ends the walk with the field number of that tag. *)
Theorem raw_walk_truncated_payload (fs : list wire_field)
    (tag body : list byte) :
  forallb well_formed fs = true ->
  is_varint tag = true ->
  truncated_payload (varint_value tag mod 8) body = true ->
  raw_field_numbers (serialize fs ++ tag ++ body)
  = Ret (map field_number fs ++ [varint_value tag / 8]).
Proof.
  intros Hwf Htag Hcut.
  apply walk_raw_field_numbers. apply walk_serialize; [assumption|].
  destruct (tag_parts (varint_value tag)) as [Hnum Hty].
  rewrite <- Hnum.
  assert (0 < len tag) as Hpos.
  { destruct tag; [discriminate|]. rewrite len_cons.
    pose proof (len_nonneg tag). lia. }
  pose proof (len_nonneg body) as Hbody.
  pose proof (len_nonneg (serialize fs)) as Hfs.
  eapply walk_last_round.
  - rewrite !len_app. lia.
  - apply decode_varint_complete. assumption.
  - intros pos'. rewrite Hty, !len_app.
    unfold truncated_payload in Hcut.
    repeat (apply orb_true_iff in Hcut as [Hcut|Hcut]);
      apply andb_true_iff in Hcut as [Hwt Hshort];
      apply Z.eqb_eq in Hwt; rewrite Hwt;
      unfold skip_field; cbn [Z.eqb].
    + rewrite (app_assoc (serialize fs) tag), <- len_app.
      rewrite len_app.
      replace (len (serialize fs ++ tag) + len body - len (serialize fs ++ tag))
        with (len body) by lia.
      rewrite skip_varint_loop_cut; try assumption; [|unfold len; lia].
      cbn [mbind outcome_bind]. intros [= <-]. rewrite len_app. lia.
    + apply Z.ltb_lt in Hshort. intros [= <-]. lia.
    + apply Z.ltb_lt in Hshort. intros [= <-]. lia.
Qed.

Lemma raw_walk_truncated_payload_witness :
  raw_field_numbers (serialize scenario_fields ++ [x19] ++ [x01; x02; x03])
  = Ret [1; 2; 3].
Proof.
  apply (raw_walk_truncated_payload scenario_fields [x19] [x01; x02; x03]);
    reflexivity.
Defined.

(** X10: a tag that is itself cut short still yields a field number: when
    the buffer ends, after well-formed fields, with one or more bytes that
    all carry the continuation bit, the walk records the groups read so far
    shifted right by 3 as the last field number. *)
Theorem raw_walk_truncated_tag (fs : list wire_field) (b : byte)
    (cut : list byte) :
  forallb well_formed fs = true ->
  forallb continuation (b :: cut) = true ->
  raw_field_numbers (serialize fs ++ b :: cut)
  = Ret (map field_number fs ++ [varint_value (b :: cut) / 8]).
Proof.
  intros Hwf Hcut.
  apply walk_raw_field_numbers. apply walk_serialize; [assumption|].
  destruct (tag_parts (varint_value (b :: cut))) as [Hnum _].
  rewrite <- Hnum.
  pose proof (len_nonneg cut). pose proof (len_nonneg (serialize fs)).
  eapply walk_last_round.
  - rewrite len_app, len_cons. lia.
  - apply decode_varint_cut. assumption.
  - intros pos' Hskip. apply skip_field_forward in Hskip.
    + pose proof (min_advance_nonneg (Z.land (varint_value (b :: cut)) 7)).
      lia.
    + apply len_nonneg.
Qed.

Lemma raw_walk_truncated_tag_witness :
  raw_field_numbers (serialize scenario_fields ++ [x98; x80]) = Ret [1; 2; 3].
Proof.
  apply (raw_walk_truncated_tag scenario_fields x98 [x80]); reflexivity.
Defined.

(** ** Encodings that are longer than needed *)

Lemma with_continuation_spec (b : byte) :
  continuation (with_continuation b) = true
  /\ low7 (with_continuation b) = low7 b.
Proof.
  pose proof (low7_range b) as Hr.
  unfold with_continuation, continuation. unfold low7 at 2.
  rewrite byte_val_of_Z by lia. split; [apply Z.leb_le; lia|].
  rewrite <- Zplus_mod_idemp_r, Z.mod_same, Z.add_0_r by lia.
  apply Z.mod_small. assumption.
Qed.

Lemma is_varint_app (run bs : list byte) :
  forallb continuation run = true -> is_varint bs = true ->
  is_varint (run ++ bs) = true.
Proof.
  intros Hrun Hbs. induction run as [|b run IH]; [assumption|].
  cbn [forallb] in Hrun. apply andb_true_iff in Hrun as [Hb Hrun].
  specialize (IH Hrun). cbn [app is_varint]. rewrite Hb, IH.
  destruct (run ++ bs); [discriminate | reflexivity].
Qed.

Lemma varint_value_app (run bs : list byte) :
  varint_value (run ++ bs)
  = varint_value run + 128 ^ Z.of_nat (length run) * varint_value bs.
Proof.
  induction run as [|b run IH].
  - cbn [app varint_value length]. change (128 ^ Z.of_nat 0) with 1. lia.
  - cbn [app varint_value length]. rewrite IH.
    rewrite Nat2Z.inj_succ, Z.pow_succ_r by lia. lia.
Qed.

Lemma varint_value_continued (bs : list byte) :
  forallb continuation (map with_continuation bs) = true
  /\ varint_value (map with_continuation bs) = varint_value bs.
Proof.
  induction bs as [|b bs [IHc IHv]]; [split; reflexivity|].
  destruct (with_continuation_spec b) as [Hc Hl].
  cbn [map forallb varint_value]. rewrite Hc, IHc, Hl, IHv.
  split; reflexivity.
Qed.

Lemma empty_groups (k : nat) :
  is_varint (replicate k x80 ++ [x00]) = true
  /\ varint_value (replicate k x80 ++ [x00]) = 0.
Proof.
  induction k as [|k [IHv IHz]]; [split; reflexivity|].
  cbn [replicate app is_varint varint_value]. rewrite IHv, IHz.
  split; [|reflexivity].
  destruct (replicate k x80 ++ [x00]); [discriminate | reflexivity].
Qed.

(** X11: [decode_varint] does not ask for the shortest encoding and has no
    limit on the length of a varint: the groups of an integer followed by
    any number of empty groups decode to the same integer, so many byte
    strings decode to one value. *)
Theorem decode_varint_padded (n : Z) (k : nat) :
  0 <= n ->
  decode_varint (padded_varint n k) 0
  = Ret (n, len (encode_varint n) + Z.of_nat k + 1).
Proof.
  intros Hn. destruct (encode_varint_spec n Hn) as [_ Hval].
  destruct (varint_value_continued (encode_varint n)) as [Hc Hv].
  destruct (empty_groups k) as [Hpad Hzero].
  pose proof (decode_varint_complete [] (padded_varint n k) []) as Hdec.
  cbn [app] in Hdec. rewrite app_nil_r, len_nil in Hdec.
  rewrite Hdec.
  - unfold padded_varint. rewrite varint_value_app, Hv, Hval, Hzero.
    rewrite len_app. unfold len.
    rewrite length_map, length_app, length_replicate. cbn [length].
    f_equal. f_equal; lia.
  - unfold padded_varint. apply is_varint_app; assumption.
Qed.

Lemma decode_varint_padded_witness :
  padded_varint 300 2 = [xac; x82; x80; x80; x00]
  /\ decode_varint (padded_varint 300 2) 0 = Ret (300, 5).
Proof.
  split; [reflexivity|].
  apply (decode_varint_padded 300 2). lia.
Defined.

(** ** The report and the wire order *)

(** X12: the report depends on which field numbers occur on the wire, not
    on their order or on how often they occur: two walks that found the
    same numbers print the same line. *)
Theorem unknown_fields_report_order (l1 l2 : list Z) :
  (forall x : Z, x ∈ l1 <-> x ∈ l2) ->
  unknown_fields_report l1 = unknown_fields_report l2
  /\ unknown_fields_line l1 = unknown_fields_line l2.
Proof.
  intros Hsame.
  assert (unknown_fields_report l1 = unknown_fields_report l2) as Hrep.
  { rewrite !unknown_fields_report_by_set. cbn zeta.
    replace (list_to_set l1 : gset Z) with (list_to_set l2 : gset Z);
      [reflexivity|].
    apply set_eq. intros x. rewrite !elem_of_list_to_set. symmetry. apply Hsame. }
  split; [exact Hrep|]. unfold unknown_fields_line. rewrite Hrep. reflexivity.
Qed.

Lemma unknown_fields_report_order_witness :
  unknown_fields_report [300; 8; 1; 300; 1] = unknown_fields_report [1; 8; 300]
  /\ unknown_fields_line [300; 8; 1; 300; 1] = unknown_fields_line [1; 8; 300].
Proof.
  apply (unknown_fields_report_order [300; 8; 1; 300; 1] [1; 8; 300]).
  intros x. rewrite !elem_of_cons, elem_of_nil. tauto.
Defined.

(** ** The lines of [print_packet] and [main] *)

Lemma land_bit_clear (v : Z) (i : Z) :
  0 <= i -> Z.testbit v i = false -> (Z.land v (2 ^ i) =? 0) = true.
Proof.
  intros Hi Hbit. apply Z.eqb_eq. apply Z.bits_inj'. intros j Hj.
  rewrite Z.land_spec, Z.bits_0, Z.pow2_bits_eqb by assumption.
  destruct (Z.eqb_spec i j) as [->|_]; [rewrite Hbit|]; auto using andb_false_r.
Qed.

Lemma land_bit (v : Z) (i : Z) :
  0 <= i -> (Z.land v (2 ^ i) =? 0) = negb (Z.testbit v i).
Proof.
  intros Hi. destruct (Z.testbit v i) eqn:Hbit.
  - apply land_bit_set; assumption.
  - apply land_bit_clear; assumption.
Qed.

(** X13: each flag is named exactly when its own bit of [sequence_flags] is
    set, whatever the other bits are; with bits 0 and 1 both clear the line
    shows empty parentheses. *)
Theorem sequence_flag_names_bits (v : Z) :
  sequence_flag_names v
  = (if Z.testbit v 0 then ["INCREMENTAL_STATE_CLEARED"%string] else [])
    ++ (if Z.testbit v 1 then ["NEEDS_INCREMENTAL_STATE"%string] else [])
  /\ sequence_flag_names v = sequence_flag_names (Z.land v 3)
  /\ (Z.testbit v 0 = false -> Z.testbit v 1 = false ->
      print_sequence_flags (Some v)
      = Some ("  sequence_flags: " ++ str_of_int v ++ " ()")%string).
Proof.
  assert (forall w,
             sequence_flag_names w
             = (if Z.testbit w 0 then ["INCREMENTAL_STATE_CLEARED"%string] else [])
               ++ (if Z.testbit w 1 then ["NEEDS_INCREMENTAL_STATE"%string] else []))
    as Hbits.
  { intros w. unfold sequence_flag_names.
    change (Z.land w 1) with (Z.land w (2 ^ 0)).
    change (Z.land w 2) with (Z.land w (2 ^ 1)).
    rewrite !land_bit by lia.
    destruct (Z.testbit w 0), (Z.testbit w 1); reflexivity. }
  split; [apply Hbits|]. split.
  - rewrite (Hbits v), (Hbits (Z.land v 3)), !Z.land_spec.
    change (Z.testbit 3 0) with true. change (Z.testbit 3 1) with true.
    rewrite !andb_true_r. reflexivity.
  - intros H0 H1. unfold print_sequence_flags.
    rewrite Hbits, H0, H1. reflexivity.
Qed.

Lemma sequence_flag_names_bits_witness :
  sequence_flag_names 6 = ["NEEDS_INCREMENTAL_STATE"%string]
  /\ print_sequence_flags (Some 4) = Some "  sequence_flags: 4 ()"%string.
Proof.
  pose proof (sequence_flag_names_bits 6) as (H6 & _).
  pose proof (sequence_flag_names_bits 4) as (_ & _ & H4).
  split; [exact H6 | exact (H4 eq_refl eq_refl)].
Defined.

Lemma hex_digit_read_back (d : Z) :
  0 <= d < 16 -> hex_digit_value (hex_digit d) = d.
Proof.
  intros Hd.
  assert (exists n : nat, (n < 16)%nat /\ d = Z.of_nat n) as (n & Hn & ->)
    by (exists (Z.to_nat d); lia).
  do 16 (destruct n as [|n]; [reflexivity|]). lia.
Qed.

Lemma byte_val_inj (b1 b2 : byte) : byte_val b1 = byte_val b2 -> b1 = b2.
Proof.
  unfold byte_val. intros H. apply N2Z.inj in H.
  pose proof (Byte.of_to_N b1) as H1. pose proof (Byte.of_to_N b2) as H2.
  rewrite H in H1. congruence.
Qed.

Lemma hex_length (data : list byte) :
  String.length (hex data) = (2 * length data)%nat.
Proof.
  induction data as [|b data IH]; [reflexivity|].
  cbn [hex String.length length]. rewrite IH. lia.
Qed.

Lemma hex_inj (d1 : list byte) : forall d2, hex d1 = hex d2 -> d1 = d2.
Proof.
  induction d1 as [|b1 d1 IH]; intros [|b2 d2] H; cbn [hex] in H;
    try discriminate; [reflexivity|].
  injection H as Hhi Hlo Hrest.
  pose proof (byte_val_range b1) as R1. pose proof (byte_val_range b2) as R2.
  apply (f_equal hex_digit_value) in Hhi, Hlo.
  rewrite !hex_digit_read_back in Hhi, Hlo
    by first [ apply Z.mod_pos_bound; lia
             | split; [apply Z.div_pos; lia | apply Z.div_lt_upper_bound; lia] ].
  f_equal; [|apply IH; assumption].
  apply byte_val_inj.
  rewrite (Z.div_mod (byte_val b1) 16), (Z.div_mod (byte_val b2) 16) by lia.
  congruence.
Qed.

Lemma string_length_app (s1 s2 : string) :
  String.length (s1 ++ s2)%string = (String.length s1 + String.length s2)%nat.
Proof.
  induction s1 as [|c s1 IH]; [reflexivity|].
  simpl. f_equal. exact IH.
Qed.

(** X15: the hex preview shows two digits for each of the first 200 bytes
    and stops at the end of a shorter file, so the printed line is at most
    427 characters long; it loses nothing: two files have the same preview exactly when
    their first 200 bytes are the same. *)
Theorem hex_preview_spec (d1 d2 : list byte) :
  String.length (hex_preview d1) = (2 * Nat.min 200 (length d1))%nat
  /\ (String.length (print_hex_preview d1) <= 427)%nat
  /\ (hex_preview d1 = hex_preview d2 <-> take 200 d1 = take 200 d2).
Proof.
  assert (String.length (hex_preview d1) = (2 * Nat.min 200 (length d1))%nat)
    as Hlen by (unfold hex_preview; rewrite hex_length, length_take; reflexivity).
  split; [exact Hlen|]. split.
  - unfold print_hex_preview. rewrite string_length_app, Hlen.
    cbn [String.length]. lia.
  - unfold hex_preview. split; [apply hex_inj | intros ->; reflexivity].
Qed.

(** ** A packet that ends the loop over the packets *)








